(** * geospatial-unet: tiling, splitting, stitching and the U-Net topology

    A shallow embedding of [src/utils.py] ([cut_into_tiles], [split_tiles],
    [jahit_tiles]) and of [src/model.py] ([uncompiled_unet]), together with
    the properties the specification states about them.

    Conventions.
    - Python exceptions are values of [exn]; a function that may raise
      returns a [result].
    - A Python [dict] is an insertion-ordered association list with unique
      keys ([dict_set] overwrites in place, otherwise appends), because
      [jahit_tiles] depends on the iteration order ([next(iter(...))], and
      the last writer wins on overlapping blocks).
    - A NumPy array is a record of its [shape] and of its contents as nested
      lists; slicing clips at the array bounds and slice assignment
      broadcasts, as NumPy does.
    - Sizes and pixel offsets are natural numbers. *)

From Stdlib Require Import Reals Lra.
From stdpp Require Import base list.

(** ** Exceptions and the error monad *)

Abbreviation key := (nat * nat)%type.

Inductive exn : Type :=
  | StopIteration            (* next() on an exhausted iterator *)
  | KeyError (k : key)       (* dict lookup of a missing key *)
  | ValueError               (* range() step 0, broadcast failure, sklearn guard *)
  | IndexError               (* indexing a missing axis or channel *)
  | ShapeError.              (* Keras or TensorFlow rejects a tensor shape *)

Inductive result (A : Type) : Type :=
  | Ok (a : A)
  | Raise (e : exn).
Arguments Ok {A} a.
Arguments Raise {A} e.

#[global] Instance result_ret : MRet result := fun _ a => Ok a.
#[global] Instance result_bind : MBind result := fun _ _ f m =>
  match m with Ok a => f a | Raise e => Raise e end.

Fixpoint foldlM {S X : Type} (f : S -> X -> result S) (s : S) (l : list X)
  : result S :=
  match l with
  | [] => Ok s
  | x :: l => s' ← f s x; foldlM f s' l
  end.

(** ** Python [range(start, stop, step)] for non-negative arguments *)

Fixpoint range_aux (fuel i stop step : nat) : list nat :=
  match fuel with
  | 0 => []
  | S fuel => if decide (i < stop) then i :: range_aux fuel (i + step) stop step
              else []
  end.

(** [range()] raises [ValueError] when the step is zero. *)
Definition py_range (start stop step : nat) : result (list nat) :=
  if decide (step = 0) then Raise ValueError
  else Ok (range_aux (stop - start) start stop step).

(** ** Insertion-ordered dictionaries keyed by tile origins *)

Abbreviation dict V := (list (key * V)).

Section Dict.
Context {V : Type}.

Fixpoint dict_get (k : key) (d : dict V) : option V :=
  match d with
  | [] => None
  | (k', v) :: d => if decide (k = k') then Some v else dict_get k d
  end.

(** [d[k] = v] *)
Fixpoint dict_set (k : key) (v : V) (d : dict V) : dict V :=
  match d with
  | [] => [(k, v)]
  | (k', v') :: d => if decide (k = k') then (k, v) :: d
                     else (k', v') :: dict_set k v d
  end.

Definition dict_keys (d : dict V) : list key := d.*1.
Definition dict_values (d : dict V) : list V := d.*2.

(** [d[k]], raising [KeyError k] when [k] is missing. *)
Definition getitem (d : dict V) (k : key) : result V :=
  match dict_get k d with
  | Some v => Ok v
  | None => Raise (KeyError k)
  end.
End Dict.

(** ** NumPy arrays *)

Record ndarray3 (A : Type) : Type := Array3 {
  shape3 : nat * nat * nat;
  data3 : list (list (list A))
}.
Arguments Array3 {A} _ _.
Arguments shape3 {A} _.
Arguments data3 {A} _.

Record ndarray2 (A : Type) : Type := Array2 {
  shape2 : nat * nat;
  data2 : list (list A)
}.
Arguments Array2 {A} _ _.
Arguments shape2 {A} _.
Arguments data2 {A} _.

(** The contents agree with the recorded shape. *)
Definition wf3 {A} (a : ndarray3 A) : Prop :=
  let '(h, w, c) := shape3 a in
  length (data3 a) = h ∧
  Forall (λ row, length row = w ∧ Forall (λ px, length px = c) row) (data3 a).

Definition wf2 {A} (a : ndarray2 A) : Prop :=
  let '(h, w) := shape2 a in
  length (data2 a) = h ∧ Forall (λ row, length row = w) (data2 a).

(** Element access, [None] out of range. *)
Definition get2 {A} (a : ndarray2 A) (r c : nat) : option A :=
  row ← data2 a !! r; row !! c.
Definition get3 {A} (a : ndarray3 A) (r c k : nat) : option A :=
  row ← data3 a !! r; px ← row !! c; px !! k.

(** [l[i:k]] for [0 <= i]: Python clips both ends at [len(l)]. *)
Definition py_slice {X} (i k : nat) (l : list X) : list X :=
  take (k - i) (drop i l).
Definition slice_len (n i k : nat) : nat := k `min` n - i `min` n.

(** [a[i:i', j:j']] on a 3-D array (the channel axis is kept whole). *)
Definition slice3 {A} (a : ndarray3 A) (i i' j j' : nat) : ndarray3 A :=
  let '(h, w, c) := shape3 a in
  Array3 (slice_len h i i', slice_len w j j', c)
         (py_slice j j' <$> py_slice i i' (data3 a)).

(** ** The Tiler: [cut_into_tiles] *)

Abbreviation tileset A := (dict (ndarray3 A)).

Section Tiler.
Context {A : Type}.

Definition cut_into_tiles (img : ndarray3 A) (tile_size : nat)
  : result (tileset A) :=
  let '(height, width, _) := shape3 img in
  rows ← py_range 0 height tile_size;
  foldlM (λ tiles i,
    cols ← py_range 0 width tile_size;
    Ok (foldl (λ tiles j,
          let tile := slice3 img i (i + tile_size) j (j + tile_size) in
          if decide ((shape3 tile).1.1 = tile_size ∧
                     (shape3 tile).1.2 = tile_size)
          then dict_set (i, j) tile tiles
          else tiles) tiles cols))
    [] rows.
End Tiler.

(** ** The Stitcher: [jahit_tiles]

    The tiles hold values of type [A]; [np.zeros] creates a float array,
    whose cells have type [F], and slice assignment converts each value with
    [to_float] (NumPy's cast to the dtype of the destination). *)

Section Stitcher.
Context {A F : Type} (fzero : F) (to_float : A → F).

(** [np.zeros((h, w))] *)
Definition zeros (h w : nat) : ndarray2 F :=
  Array2 (h, w) (replicate h (replicate w fzero)).

(** [tile[..., 0]]: channel 0 of every pixel; [IndexError] when the
    channel axis has size 0. *)
Definition chan0 (tile : ndarray3 A) : result (ndarray2 A) :=
  let '(h, w, c) := shape3 tile in
  if decide (c = 0) then Raise IndexError
  else match mapM (mapM head) (data3 tile) with
       | Some d => Ok (Array2 (h, w) d)
       | None => Raise IndexError
       end.

(** Broadcasting along one axis: an axis of the target size is kept, an
    axis of size 1 is repeated. *)
Definition stretch {X} (n m : nat) (l : list X) : list X :=
  if decide (m = n) then l else concat (replicate n l).

(** NumPy broadcasts the assigned value [v] to the shape [(lh, lw)] of the
    slice: each axis of [v] must have the size of the target axis or size
    1, otherwise [ValueError] (could not broadcast input array). *)
Definition broadcast_to {X} (v : ndarray2 X) (lh lw : nat)
  : result (list (list X)) :=
  let '(vh, vw) := shape2 v in
  if decide ((vh = lh ∨ vh = 1) ∧ (vw = lw ∨ vw = 1))
  then Ok (stretch lh vh (stretch lw vw <$> data2 v))
  else Raise ValueError.

(** Overwrite the block with top-left corner [(i, j)] by [blk]. *)
Definition write_block {X} (i j : nat) (blk rows : list (list X))
  : list (list X) :=
  list_inserts i (zip_with (list_inserts j) blk (drop i rows)) rows.

(** Conversion of a block to the dtype of the destination. *)
Definition cast_block (blk : list (list A)) : list (list F) :=
  (λ row : list A, to_float <$> row) <$> blk.

(** [full[i:i', j:j'] = v] *)
Definition setitem_block (full : ndarray2 F) (i i' j j' : nat)
    (v : ndarray2 A) : result (ndarray2 F) :=
  let '(h, w) := shape2 full in
  blk ← broadcast_to v (slice_len h i i') (slice_len w j j');
  Ok (Array2 (h, w) (write_block i j (cast_block blk) (data2 full))).

(** [np.zeros(output_shape[:2])] cannot fail; with fewer than two
    dimensions requested the array is not 2-D and the first assignment of
    the loop raises [IndexError] (as does [tile[..., 0]] on a tile without
    channels, which is evaluated first). *)
Definition jahit_tiles (tiles : tileset A) (output_shape : list nat)
  : result (ndarray2 F) :=
  match dict_values tiles with
  | [] => Raise StopIteration          (* next(iter(tiles.values())) *)
  | first :: _ =>
    let tile_size := (shape3 first).1.1 in
    match take 2 output_shape with
    | [h; w] =>
        foldlM (λ full '((i, j), tile),
                  v ← chan0 tile;
                  setitem_block full i (i + tile_size) j (j + tile_size) v)
               (zeros h w) tiles
    | _ => Raise IndexError
    end
  end.
End Stitcher.

(** ** The DatasetSplitter: [split_tiles]

    [sklearn.model_selection.train_test_split(xs, test_size=0.2)] with the
    default [shuffle=True]: [n_test = ceil(0.2 * n)], [n_train = n - n_test],
    [ValueError] when the train set would be empty; a random permutation
    [perm] of [range(n)] is drawn, the test indices are [perm[:n_test]] and
    the train indices [perm[n_test:n_test + n_train]]. The random draw is the
    argument [perm]. The double nearest to 0.2 is 0.2 * (1 + 2^-54), so the
    product [0.2 * n] rounds to [n / 5] exactly when 5 divides [n] and stays
    strictly between two integers otherwise: its ceiling is [(n + 4) / 5]. *)

Section Splitter.
Context {A B : Type}.

Definition n_test_of (n : nat) : nat := (n + 4) / 5.

Definition index {X} (xs : list X) (i : nat) : result X :=
  match xs !! i with
  | Some x => Ok x
  | None => Raise IndexError
  end.

Definition train_test_split {X} (perm : list nat) (xs : list X)
  : result (list X * list X) :=
  let n_samples := length xs in
  let n_test := n_test_of n_samples in
  let n_train := n_samples - n_test in
  if decide (n_train = 0) then Raise ValueError
  else
    let ind_test := py_slice 0 n_test perm in
    let ind_train := py_slice n_test (n_test + n_train) perm in
    train ← mapM (index xs) ind_train;
    test ← mapM (index xs) ind_test;
    Ok (train, test).

(** [np.array([t1, ..., tn])] stacks equal-shaped arrays along a new
    leading axis, here the list of its entries; arrays of different shapes
    raise [ValueError] (inhomogeneous shape). *)
Definition np_array {X} (l : list (ndarray3 X))
  : result (list (ndarray3 X)) :=
  match l with
  | [] => Ok []
  | t :: _ => if decide (Forall (λ t', shape3 t' = shape3 t) l) then Ok l
              else Raise ValueError
  end.

Definition split_tiles (perm : list nat)
    (satellite_tiles : tileset A) (vegetation_tiles : tileset B)
  : result (list key * list key * list (ndarray3 A) * list (ndarray3 B)
            * list (ndarray3 A) * list (ndarray3 B)) :=
  let tile_indices := dict_keys satellite_tiles in
  '(train_indices, test_indices) ← train_test_split perm tile_indices;
  sat_train ← mapM (getitem satellite_tiles) train_indices ≫= np_array;
  veg_train ← mapM (getitem vegetation_tiles) train_indices ≫= np_array;
  sat_test ← mapM (getitem satellite_tiles) test_indices ≫= np_array;
  veg_test ← mapM (getitem vegetation_tiles) test_indices ≫= np_array;
  Ok (train_indices, test_indices, sat_train, veg_train, sat_test, veg_test).
End Splitter.

(** ** The SegmentationModel: [uncompiled_unet]

    A tensor is one sample (the batch axis is left out) of shape
    [(h, w, channels)] over the real numbers; the trainable parameters of the
    six convolutions are an argument of the forward pass. A shape that Keras
    or TensorFlow rejects gives [ShapeError], whichever exception class the
    layer uses for it. *)

Module Unet.
Abbreviation tensor := (ndarray3 R).

Definition tabulate3 (h w c : nat) (f : nat → nat → nat → R) : tensor :=
  Array3 (h, w, c)
    ((λ i, (λ j, (λ k, f i j k) <$> seq 0 c) <$> seq 0 w) <$> seq 0 h).

(** Value at an index, 0 outside the tensor (zero padding). *)
Definition at3 (x : tensor) (i j k : nat) : R := default 0%R (get3 x i j k).

Definition sumR (n : nat) (f : nat → R) : R :=
  foldr (λ i acc, (f i + acc)%R) 0%R (seq 0 n).

Record conv_weights : Type := ConvWeights {
  kernel : nat → nat → nat → nat → R;   (* row, column, channel in, filter *)
  bias : nat → R
}.

Inductive padding : Type := same | valid.

Definition relu (x : R) : R := Rmax 0 x.
Definition sigmoid (x : R) : R := (/ (1 + exp (- x)))%R.

(** [Input((None, None, 4))]: a dimension given in the model's input
    specification must match the tensor fed to the model. *)
Definition dim_ok (spec : option nat) (n : nat) : Prop :=
  match spec with Some m => n = m | None => True end.
#[global] Instance dim_ok_dec spec n : Decision (dim_ok spec n).
Proof. destruct spec; simpl; apply _. Defined.

Definition Input (spec : option nat * option nat * option nat) (x : tensor)
  : result tensor :=
  let '(sh, sw, sc) := spec in
  let '(h, w, c) := shape3 x in
  if decide (dim_ok sh h ∧ dim_ok sw w ∧ dim_ok sc c) then Ok x
  else Raise ShapeError.

(** [Conv2D(filters, (ks, ks), activation, padding)] with stride 1.
    [same] pads [(ks - 1) / 2] zeros before each spatial axis and keeps the
    spatial size; [valid] (the default) does not pad and needs the window to
    fit. *)
Definition Conv2D (filters ks : nat) (activation : R → R) (pad : padding)
    (wt : conv_weights) (x : tensor) : result tensor :=
  let '(h, w, c) := shape3 x in
  let p := match pad with same => (ks - 1) / 2 | valid => 0 end in
  let padded a b k :=
    if decide (p ≤ a ∧ p ≤ b) then at3 x (a - p) (b - p) k else 0%R in
  let out (i j f : nat) :=
    activation (Rplus (bias wt f)
      (sumR ks (λ di, sumR ks (λ dj, sumR c (λ k,
        Rmult (kernel wt di dj k f) (padded (i + di) (j + dj) k)))))) in
  match pad with
  | same => Ok (tabulate3 h w filters out)
  | valid =>
      if decide (ks ≤ S h ∧ ks ≤ S w)
      then Ok (tabulate3 (S h - ks) (S w - ks) filters out)
      else Raise ShapeError
  end.

(** [MaxPooling2D(pool_size=(2, 2))]: stride 2, no padding; a map lower or
    narrower than the 2 by 2 window, an empty map included, is rejected. *)
Definition MaxPooling2D (x : tensor) : result tensor :=
  let '(h, w, c) := shape3 x in
  if decide (2 ≤ h ∧ 2 ≤ w)
  then Ok (tabulate3 (h / 2) (w / 2) c (λ i j k,
        Rmax (Rmax (at3 x (2 * i) (2 * j) k) (at3 x (2 * i) (2 * j + 1) k))
             (Rmax (at3 x (2 * i + 1) (2 * j) k)
                   (at3 x (2 * i + 1) (2 * j + 1) k))))
  else Raise ShapeError.

(** [UpSampling2D(size=(2, 2))]: nearest-neighbour repetition. *)
Definition UpSampling2D (x : tensor) : result tensor :=
  let '(h, w, c) := shape3 x in
  Ok (tabulate3 (2 * h) (2 * w) c (λ i j k, at3 x (i / 2) (j / 2) k)).

(** [concatenate([a, b], axis=3)]: along the channel axis; the spatial
    sizes must agree. *)
Definition concatenate (a b : tensor) : result tensor :=
  let '(h, w, c) := shape3 a in
  let '(h', w', c') := shape3 b in
  if decide (h = h' ∧ w = w')
  then Ok (tabulate3 h w (c + c') (λ i j k,
             if decide (k < c) then at3 a i j k else at3 b i j (k - c)))
  else Raise ShapeError.

Record unet_weights : Type := UnetWeights {
  w_conv1 : conv_weights; w_conv2 : conv_weights; w_conv3 : conv_weights;
  w_conv4 : conv_weights; w_conv5 : conv_weights; w_output : conv_weights
}.

(** The forward pass of the model built by [uncompiled_unet()]. *)
Definition uncompiled_unet (θ : unet_weights) (x : tensor) : result tensor :=
  inputs ← Input (None, None, Some 4) x;
  conv1 ← Conv2D 32 3 relu same (w_conv1 θ) inputs;
  pool1 ← MaxPooling2D conv1;
  conv2 ← Conv2D 64 3 relu same (w_conv2 θ) pool1;
  pool2 ← MaxPooling2D conv2;
  conv3 ← Conv2D 128 3 relu same (w_conv3 θ) pool2;
  up3 ← UpSampling2D conv3;
  up4 ← concatenate up3 conv2;
  conv4 ← Conv2D 64 3 relu same (w_conv4 θ) up4;
  up4' ← UpSampling2D conv4;
  up5 ← concatenate up4' conv1;
  conv5 ← Conv2D 32 3 relu same (w_conv5 θ) up5;
  Conv2D 1 1 sigmoid valid (w_output θ) conv5.
End Unet.

(** ** Vocabulary of the specification *)

(** The origins [(i * T, j * T)], [i < H / T], [j < W / T], row by row. *)
Definition tile_keys (H W T : nat) : list key :=
  ((λ k, k * T) <$> seq 0 (H / T)) ≫= λ i,
    (λ j, (i, j)) <$> ((λ k, k * T) <$> seq 0 (W / T)).

(** The sub-array [img[row : row + T, col : col + T, :]]. *)
Definition tile_at {A} (img : ndarray3 A) (T : nat) (k : key) : ndarray3 A :=
  slice3 img k.1 (k.1 + T) k.2 (k.2 + T).

(** The block of side [T] at the origin [k] contains the cell [(x, y)]. *)
Definition covers (T : nat) (k : key) (x y : nat) : Prop :=
  (k.1 ≤ x < k.1 + T) ∧ (k.2 ≤ y < k.2 + T).
#[global] Instance covers_dec T k x y : Decision (covers T k x y).
Proof. unfold covers. apply _. Defined.

(** The [n] by [m] block at [(i, j)] contains the cell [(x, y)]. *)
Definition covers_rect (i j n m x y : nat) : Prop :=
  (i ≤ x < i + n) ∧ (j ≤ y < j + m).
#[global] Instance covers_rect_dec i j n m x y :
  Decision (covers_rect i j n m x y).
Proof. unfold covers_rect. apply _. Defined.

(** The block of side [T] at the origin [k] lies inside [(h, w)]. *)
Definition fits (T h w : nat) (k : key) : Prop := k.1 + T ≤ h ∧ k.2 + T ≤ w.
#[global] Instance fits_dec T h w k : Decision (fits T h w k).
Proof. unfold fits. apply _. Defined.

(** A well-formed tile of shape [(T, T, C)]. *)
Definition tile_ok {A} (T C : nat) (t : ndarray3 A) : Prop :=
  shape3 t = (T, T, C) ∧ wf3 t.

(** The value of the cell [(x, y)] after the tiles have been copied in
    iteration order over a cell that held [v0]: each tile that covers the
    cell overwrites it. *)
Definition paint_cell {A F} (to_float : A → F) (T : nat) (tiles : tileset A)
    (x y : nat) (v0 : option F) : option F :=
  foldl (λ v '(k, tile),
           if decide (covers T k x y)
           then to_float <$> get3 tile (x - k.1) (y - k.2) 0
           else v) v0 tiles.

(** The region of [full] at the origin [k] is channel 0 of [tile]. *)
Definition region_is_tile {A F} (to_float : A → F) (T : nat)
    (full : ndarray2 F) (k : key) (tile : ndarray3 A) : Prop :=
  ∀ x y, x < T → y < T →
    get2 full (k.1 + x) (k.2 + y) = to_float <$> get3 tile x y 0.

(** All tiles of a TileSet have the same shape. *)
Definition uniform {A} (d : tileset A) : Prop :=
  ∃ s, Forall (λ kt, shape3 kt.2 = s) d.

(** [stack] holds, position by position, the values stored in [d] under the
    keys of the list [keys]. *)
Definition gathered {V} (d : dict V) (keys : list key) (stack : list V) : Prop :=
  length stack = length keys ∧
  ∀ i k, keys !! i = Some k →
    ∃ v, stack !! i = Some v ∧ dict_get k d = Some v.

(** [round(0.2 * n)]; a fifth of an integer is never halfway between two
    integers, so every rounding rule gives this value. *)
Definition round_fifth (n : nat) : nat := (2 * n + 5) / 10.

(** ** Concrete inputs used below *)

Definition img_demo : ndarray3 nat :=
  Array3 (3, 5, 1)
    [ [[1]; [2]; [3]; [4]; [5]];
      [[6]; [7]; [8]; [9]; [10]];
      [[11]; [12]; [13]; [14]; [15]] ].

Definition img_even : ndarray3 nat :=
  Array3 (2, 4, 1)
    [ [[1]; [2]; [3]; [4]];
      [[5]; [6]; [7]; [8]] ].

(** A raster without rows or columns. *)
Definition img_empty : ndarray3 nat := Array3 (0, 0, 1) [].

Definition tiles_demo : tileset nat :=
  [ ((0, 0), Array3 (2, 2, 1) [ [[1]; [2]]; [[6]; [7]] ]);
    ((0, 2), Array3 (2, 2, 1) [ [[3]; [4]]; [[8]; [9]] ]) ].

(** Two tiles of side 2 inside a 3 by 3 target that share the cell (1, 1). *)
Definition tile_ones : ndarray3 nat := Array3 (2, 2, 1) [ [[1]; [1]]; [[1]; [1]] ].
Definition tile_twos : ndarray3 nat := Array3 (2, 2, 1) [ [[2]; [2]]; [[2]; [2]] ].
Definition tiles_overlap : tileset nat :=
  [ ((0, 0), tile_ones); ((1, 1), tile_twos) ].

(** A tile of side 1 keyed below the last row of a 2 by 2 target. *)
Definition tiles_oob : tileset nat := [ ((5, 0), Array3 (1, 1, 1) [ [[7]] ]) ].

(** Satellite tiles at two keys, label tiles at one key more. *)
Definition sat_two : tileset nat :=
  [ ((0, 0), tile_ones); ((0, 2), tile_twos) ].
Definition veg_extra : tileset nat :=
  [ ((0, 0), tile_twos); ((0, 2), tile_ones); ((0, 4), tile_ones) ].
Definition veg_short : tileset nat := [ ((0, 0), tile_twos) ].
Definition sat_one : tileset nat := [ ((0, 0), tile_ones) ].
Definition veg_two : tileset nat :=
  [ ((0, 2), tile_ones); ((0, 0), tile_twos) ].

Definition zero_weights : Unet.conv_weights :=
  Unet.ConvWeights (λ _ _ _ _, 0%R) (λ _, 0%R).
Definition θ_demo : Unet.unet_weights :=
  Unet.UnetWeights zero_weights zero_weights zero_weights
                   zero_weights zero_weights zero_weights.

(** ** Raster I/O: [read_tif]

    A raster file as GDAL presents it: its size, its projection and
    geotransform, and its bands, each a 2-D array of [RasterYSize] rows and
    [RasterXSize] columns. The file system is a map from paths to datasets.
    A GDAL call that fails returns [None], and the method call that follows
    on it fails in turn: the fault [GdalNone]. *)

Inductive fault : Type :=
  | GdalNone            (* gdal.Open returned None *)
  | PyExn (e : exn).    (* an exception of the array code *)

Inductive io (A : Type) : Type :=
  | Done (a : A)
  | Fault (f : fault).
Arguments Done {A} a.
Arguments Fault {A} f.

#[global] Instance io_ret : MRet io := fun _ a => Done a.
#[global] Instance io_bind : MBind io := fun _ _ f m =>
  match m with Done a => f a | Fault e => Fault e end.

Definition lift {A} (r : result A) : io A :=
  match r with Ok a => Done a | Raise e => Fault (PyExn e) end.

Definition from_gdal {A} (o : option A) : io A :=
  match o with Some a => Done a | None => Fault GdalNone end.

(** [np.dstack(arrays)] on 2-D arrays: each [(h, w)] array becomes one
    channel of an [(h, w, n)] array; [ValueError] on the empty list and on
    arrays of different shapes. *)
Definition np_dstack {X} (arrays : list (ndarray2 X)) : result (ndarray3 X) :=
  match arrays with
  | [] => Raise ValueError
  | a :: _ =>
    let '(h, w) := shape2 a in
    if decide (Forall (λ b, shape2 b = (h, w)) arrays)
    then Ok (Array3 (h, w, length arrays)
               ((λ r, (λ c, omap (λ b, get2 b r c) arrays) <$> seq 0 w)
                  <$> seq 0 h))
    else Raise ValueError
  end.

Section RasterIO.
Context {Path Proj Geo X : Type}.

Record dataset : Type := Dataset {
  RasterXSize : nat;
  RasterYSize : nat;
  GetProjection : Proj;
  GetGeoTransform : Geo;
  raster_bands : list (ndarray2 X)
}.

Definition RasterCount (ds : dataset) : nat := length (raster_bands ds).

(** [ds.GetRasterBand(b)]: bands are numbered from 1. *)
Definition GetRasterBand (ds : dataset) (b : nat) : option (ndarray2 X) :=
  if decide (b = 0) then None else raster_bands ds !! (b - 1).

Definition read_tif (fs : Path → option dataset) (file_path : Path)
  : io (ndarray3 X * Proj * Geo) :=
  dataset ← from_gdal (fs file_path);
  let projection := GetProjection dataset in
  let geo_transform := GetGeoTransform dataset in
  bs ← lift (py_range 1 (RasterCount dataset + 1) 1);
  bands ← from_gdal (mapM (GetRasterBand dataset) bs);
  img ← lift (np_dstack bands);
  Done (img, projection, geo_transform).
End RasterIO.

(** A dataset whose bands all have the size of the raster. *)
Definition wf_dataset {Proj Geo X} (ds : @dataset Proj Geo X) : Prop :=
  Forall (λ b, shape2 b = (RasterYSize ds, RasterXSize ds) ∧ wf2 b)
         (raster_bands ds).

(** No cell lies in the blocks of two different entries. *)
Definition non_overlapping {A} (T : nat) (tiles : tileset A) : Prop :=
  ∀ kt kt' x y, kt ∈ tiles → kt' ∈ tiles →
    covers T kt.1 x y → covers T kt'.1 x y → kt = kt'.

(** A file with two bands of 2 rows and 3 columns. *)
Definition ds_demo : @dataset nat nat nat :=
  Dataset 3 2 7 9 [ Array2 (2, 3) [ [1; 2; 3]; [4; 5; 6] ];
                    Array2 (2, 3) [ [10; 20; 30]; [40; 50; 60] ] ].
Definition fs_demo : nat → option (@dataset nat nat nat) :=
  λ p, if decide (p = 0) then Some ds_demo else None.

(** * Properties *)

(** ** Worked examples *)

Example cut_demo :
  cut_into_tiles img_demo 2 =
  Ok [ ((0, 0), Array3 (2, 2, 1) [ [[1]; [2]]; [[6]; [7]] ]);
       ((0, 2), Array3 (2, 2, 1) [ [[3]; [4]]; [[8]; [9]] ]) ].
Proof. reflexivity. Qed.

Example jahit_demo :
  (cut_into_tiles img_demo 2 ≫= λ tiles, jahit_tiles 0%Z Z.of_nat tiles [3; 5; 1]) =
  Ok (Array2 (3, 5) [ [1; 2; 3; 4; 0]; [6; 7; 8; 9; 0]; [0; 0; 0; 0; 0] ]%Z).
Proof. reflexivity. Qed.

(** ** Generic facts: the error monad, ranges, dictionaries *)

Lemma foldlM_Ok {S X} (f : S → X → result S) (g : S → X → S) l s :
  (∀ s x, x ∈ l → f s x = Ok (g s x)) → foldlM f s l = Ok (foldl g s l).
Proof.
  revert s. induction l as [|x l IH]; intros s Hf; simpl; [done|].
  rewrite Hf by left. simpl. apply IH. intros; apply Hf. by right.
Qed.

Lemma py_range_0 stop step :
  0 < step → py_range 0 stop step = Ok (range_aux stop 0 stop step).
Proof.
  intros. unfold py_range. rewrite decide_False by lia. by rewrite Nat.sub_0_r.
Qed.

Lemma range_aux_bounds fuel i stop step x :
  x ∈ range_aux fuel i stop step → i ≤ x < stop.
Proof.
  revert i. induction fuel as [|fuel IH]; intros i; simpl.
  - by intros ?%elem_of_nil.
  - case_decide; [|by intros ?%elem_of_nil].
    intros [->|Hx%IH]%elem_of_cons; lia.
Qed.

Lemma range_aux_NoDup fuel i stop step :
  0 < step → NoDup (range_aux fuel i stop step).
Proof.
  intros Hstep. revert i. induction fuel as [|fuel IH]; intros i; simpl.
  - constructor.
  - case_decide; [|constructor].
    constructor; [|apply IH]. intros Hx%range_aux_bounds. lia.
Qed.

(** With a positive step [T], the offsets [x] of [range(0, H, T)] whose block
    [x .. x + T] fits below [H] are [0, T, ..., (H / T - 1) * T]. *)
Lemma range_aux_fit T H fuel a :
  0 < T → H - a * T ≤ fuel →
  filter (λ x, x + T ≤ H) (range_aux fuel (a * T) H T)
  = (λ k, k * T) <$> seq a (H / T - a).
Proof.
  intros HT. revert a. induction fuel as [|fuel IH]; intros a Hfuel.
  - simpl. assert (H / T ≤ a) as Hle.
    { apply Nat.Div0.div_le_upper_bound. nia. }
    by replace (H / T - a) with 0 by lia.
  - simpl. pose proof (Nat.div_mod_eq H T) as Hdm.
    pose proof (Nat.mod_upper_bound H T ltac:(lia)) as Hmod.
    case_decide as Hlt; simpl.
    + replace (a * T + T) with (S a * T) by lia.
      rewrite filter_cons, (IH (S a)) by nia. case_decide as Hfit.
      * assert (a < H / T) as Ha by nia.
        by replace (H / T - a) with (S (H / T - S a)) by lia.
      * assert (H / T ≤ a) as Ha by nia.
        replace (H / T - a) with 0 by lia.
        by replace (H / T - S a) with 0 by lia.
    + assert (H / T ≤ a) as Ha by nia.
      by replace (H / T - a) with 0 by lia.
Qed.

Section DictFacts.
Context {V : Type}.
Implicit Types (d : dict V) (k : key) (v : V).

Lemma dict_get_None k d : dict_get k d = None ↔ k ∉ dict_keys d.
Proof.
  unfold dict_keys. induction d as [|[k' v'] d IH]; simpl.
  - split; [intros _ ?%elem_of_nil|]; done.
  - rewrite not_elem_of_cons. case_decide as Hk.
    + split; [done|]. intros [Hne _]. by destruct Hne.
    + rewrite IH. tauto.
Qed.

Lemma dict_get_Some_elem k v d : dict_get k d = Some v → (k, v) ∈ d.
Proof.
  induction d as [|[k' v'] d IH]; simpl; [done|].
  case_decide; [intros [= ->]; subst; left|right; auto].
Qed.


Lemma dict_get_fmap (f : key → V) (ks : list key) k :
  k ∈ ks → dict_get k ((λ k, (k, f k)) <$> ks) = Some (f k).
Proof.
  induction ks as [|k' ks IH]; simpl; [by intros ?%elem_of_nil|].
  case_decide as Hk; [by subst|].
  intros [?|?]%elem_of_cons; [done|auto].
Qed.

Lemma dict_keys_fmap (f : key → V) (ks : list key) :
  dict_keys ((λ k, (k, f k)) <$> ks) = ks.
Proof.
  unfold dict_keys. rewrite <-list_fmap_compose.
  rewrite <-(list_fmap_id ks) at 2. by apply list_fmap_ext.
Qed.

(** Assigning to a key that is not in the dictionary appends the entry. *)
Lemma dict_set_fresh k v d :
  k ∉ dict_keys d → dict_set k v d = d ++ [(k, v)].
Proof.
  unfold dict_keys. induction d as [|[k' v'] d IH]; simpl; [done|].
  intros [Hne Hd]%not_elem_of_cons.
  rewrite decide_False by done. by rewrite IH.
Qed.

(** A loop that stores [g x] under the key [kf x] for the [x] that pass
    the test [P], all these keys being new and distinct. *)
Lemma foldl_dict_set {X} (P : X → Prop) `{!∀ x, Decision (P x)}
    (kf : X → key) (g : X → V) xs d :
  NoDup (kf <$> filter P xs) →
  (∀ x, x ∈ filter P xs → kf x ∉ dict_keys d) →
  foldl (λ d x, if decide (P x) then dict_set (kf x) (g x) d else d) d xs
  = d ++ ((λ x, (kf x, g x)) <$> filter P xs).
Proof.
  revert d. induction xs as [|x xs IH]; intros d Hnd Hfresh; simpl.
  - by rewrite app_nil_r.
  - rewrite filter_cons in Hnd, Hfresh |- *.
    destruct (decide (P x)) as [HP|HP]; [|by apply IH].
    simpl in Hnd. apply NoDup_cons in Hnd as [Hx Hnd].
    rewrite dict_set_fresh by (apply Hfresh; left).
    rewrite IH; [by rewrite <-app_assoc| done |].
    intros y Hy. unfold dict_keys. rewrite fmap_app, elem_of_app.
    intros [Hin|Hin].
    + eapply Hfresh; [by right|done].
    + simpl in Hin. apply list_elem_of_singleton in Hin.
      apply Hx. rewrite <-Hin. apply list_elem_of_fmap. eauto.
Qed.
End DictFacts.

(** ** Slices *)

Lemma slice_len_fit n i T : i < n → 0 < T → slice_len n i (i + T) = T ↔ i + T ≤ n.
Proof. unfold slice_len. lia. Qed.

Lemma py_slice_lookup {X} (l : list X) i T x :
  x < T → py_slice i (i + T) l !! x = l !! (i + x).
Proof.
  intros Hx. unfold py_slice. replace (i + T - i) with T by lia.
  by rewrite lookup_take_lt, lookup_drop.
Qed.

Lemma py_slice_length {X} (l : list X) i k :
  length (py_slice i k l) = slice_len (length l) i k.
Proof. unfold py_slice, slice_len. rewrite length_take, length_drop. lia. Qed.

Lemma slice3_shape {A} (a : ndarray3 A) H W C i i' j j' :
  shape3 a = (H, W, C) →
  shape3 (slice3 a i i' j j') = (slice_len H i i', slice_len W j j', C).
Proof. unfold slice3. by intros ->. Qed.

Lemma slice3_wf {A} (a : ndarray3 A) i i' j j' : wf3 a → wf3 (slice3 a i i' j j').
Proof.
  unfold wf3, slice3. destruct (shape3 a) as [[h w] c]. cbn [shape3 data3].
  intros [Hlen Hrows]. split.
  - by rewrite length_fmap, py_slice_length, Hlen.
  - apply Forall_fmap. unfold py_slice. apply Forall_take, Forall_drop.
    eapply Forall_impl; [exact Hrows|]. cbn beta. intros row [Hw Hpx]. split.
    + rewrite length_take, length_drop, Hw. unfold slice_len. lia.
    + by apply Forall_take, Forall_drop.
Qed.

(** Inside the block, the slice reads the array at the shifted position. *)
Lemma slice3_get {A} (a : ndarray3 A) i j T x y k :
  x < T → y < T →
  get3 (slice3 a i (i + T) j (j + T)) x y k = get3 a (i + x) (j + y) k.
Proof.
  intros Hx Hy. unfold get3, slice3. destruct (shape3 a) as [[h w] c].
  cbn [shape3 data3].
  rewrite list_lookup_fmap, py_slice_lookup by done.
  destruct (data3 a !! (i + x)) as [row|]; simpl; [|done].
  by rewrite py_slice_lookup.
Qed.

(** ** The Tiler *)

Section TilerFacts.
Context {A : Type}.
Implicit Types (img : ndarray3 A).

Lemma filter_ext_elem {X} (P Q : X → Prop)
    `{!∀ x, Decision (P x), !∀ x, Decision (Q x)} (l : list X) :
  (∀ x, x ∈ l → P x ↔ Q x) → filter P l = filter Q l.
Proof.
  induction l as [|x l IH]; intros HPQ; [done|].
  rewrite !filter_cons.
  pose proof (HPQ x ltac:(left)) as Hx.
  rewrite IH by (intros; apply HPQ; by right).
  destruct (decide (P x)), (decide (Q x)); tauto || done.
Qed.

(** One pass of the inner loop, for the row offset [i]. *)
Lemma cut_row img H W C T i (d : tileset A) :
  shape3 img = (H, W, C) → 0 < T → i < H →
  (∀ k, k ∈ dict_keys d → k.1 ≠ i) →
  foldl (λ tiles j,
           if decide ((shape3 (slice3 img i (i + T) j (j + T))).1.1 = T ∧
                      (shape3 (slice3 img i (i + T) j (j + T))).1.2 = T)
           then dict_set (i, j) (slice3 img i (i + T) j (j + T)) tiles
           else tiles)
        d (range_aux W 0 W T)
  = d ++ ((λ k, (k, tile_at img T k)) <$>
          (if decide (i + T ≤ H)
           then (λ j, (i, j)) <$> ((λ k, k * T) <$> seq 0 (W / T)) else [])).
Proof.
  intros Hshape HT Hi Hfresh.
  rewrite (foldl_dict_set
    (λ j, (shape3 (slice3 img i (i + T) j (j + T))).1.1 = T
          ∧ (shape3 (slice3 img i (i + T) j (j + T))).1.2 = T)
    (λ j, (i, j)) (λ j, slice3 img i (i + T) j (j + T))).
  - f_equal.
    rewrite (filter_ext_elem _ (λ j, i + T ≤ H ∧ j + T ≤ W)).
    2:{ intros j [_ Hj]%range_aux_bounds.
        rewrite (slice3_shape _ _ _ _ _ _ _ _ Hshape). simpl.
        by rewrite !slice_len_fit. }
    case_decide as Hfit.
    + rewrite (filter_ext_elem _ (λ j, j + T ≤ W)) by (intros; tauto).
      pose proof (range_aux_fit T W W 0 HT ltac:(lia)) as E.
      change (0 * T) with 0 in E. rewrite E, Nat.sub_0_r.
      by rewrite <-!list_fmap_compose.
    + rewrite (filter_ext_elem _ (λ _, False)) by (intros; tauto).
      generalize (range_aux W 0 W T). intros l.
      by induction l.
  - apply (NoDup_fmap_2 _). apply NoDup_filter. by apply range_aux_NoDup.
  - intros j _ Hin. by apply Hfresh in Hin.
Qed.

(** The outer loop, from the row offset [a * T] on. *)
Lemma cut_rows img H W C T fuel a (d : tileset A) :
  shape3 img = (H, W, C) → 0 < T → H - a * T ≤ fuel →
  (∀ k, k ∈ dict_keys d → k.1 < a * T) →
  foldl (λ tiles i,
           foldl (λ tiles j,
               if decide ((shape3 (slice3 img i (i + T) j (j + T))).1.1 = T ∧
                          (shape3 (slice3 img i (i + T) j (j + T))).1.2 = T)
               then dict_set (i, j) (slice3 img i (i + T) j (j + T)) tiles
               else tiles)
             tiles (range_aux W 0 W T))
        d (range_aux fuel (a * T) H T)
  = d ++ ((λ k, (k, tile_at img T k)) <$>
          (((λ k, k * T) <$> seq a (H / T - a)) ≫= λ i,
             (λ j, (i, j)) <$> ((λ k, k * T) <$> seq 0 (W / T)))).
Proof.
  intros Hshape HT. revert a d.
  induction fuel as [|fuel IH]; intros a d Hfuel Hd.
  - simpl. assert (H / T ≤ a) as Hle.
    { apply Nat.Div0.div_le_upper_bound. nia. }
    replace (H / T - a) with 0 by lia. simpl. by rewrite app_nil_r.
  - cbn [range_aux].
    pose proof (Nat.div_mod_eq H T) as Hdm.
    pose proof (Nat.mod_upper_bound H T ltac:(lia)) as Hmod.
    case_decide as Hlt.
    2:{ assert (H / T ≤ a) as Ha by nia.
        replace (H / T - a) with 0 by lia. simpl. by rewrite app_nil_r. }
    cbn [foldl].
    rewrite (cut_row img H W C T (a * T) d Hshape HT Hlt).
    2:{ intros k Hk%Hd. lia. }
    replace (a * T + T) with (S a * T) by lia.
    rewrite (IH (S a)); [|nia|].
    + rewrite <-app_assoc, <-fmap_app. do 2 f_equal.
      case_decide as Hfit.
      * assert (a < H / T) as Ha by nia.
        by replace (H / T - a) with (S (H / T - S a)) by lia.
      * assert (H / T ≤ a) as Ha by nia.
        replace (H / T - a) with 0 by lia.
        by replace (H / T - S a) with 0 by lia.
    + intros k. unfold dict_keys. rewrite fmap_app, elem_of_app.
      intros [Hk%Hd|Hk]; [lia|].
      rewrite <-list_fmap_compose in Hk. simpl in Hk.
      case_decide; [|by apply elem_of_nil in Hk].
      apply list_elem_of_fmap in Hk as (k0 & -> & Hk0).
      apply list_elem_of_fmap in Hk0 as (j & -> & _). simpl. lia.
Qed.

(** [cut_into_tiles] in closed form: the tiles at the keys [tile_keys], in
    row-major order. *)
Lemma cut_into_tiles_eq img H W C T :
  shape3 img = (H, W, C) → 0 < T →
  cut_into_tiles img T
  = Ok ((λ k, (k, tile_at img T k)) <$> tile_keys H W T).
Proof.
  intros Hshape HT. unfold cut_into_tiles. rewrite Hshape.
  rewrite !py_range_0 by done. cbn [mbind result_bind]. cbv zeta.
  erewrite foldlM_Ok; [|intros; reflexivity].
  f_equal.
  pose proof (cut_rows img H W C T H 0 [] Hshape HT ltac:(lia)) as E.
  change (0 * T) with 0 in E. rewrite E.
  - by rewrite Nat.sub_0_r.
  - by intros k ?%elem_of_nil.
Qed.
End TilerFacts.

(** *** The key space *)

Lemma tile_keys_elem H W T r c :
  (r, c) ∈ tile_keys H W T
  ↔ ∃ i j, i < H / T ∧ j < W / T ∧ r = i * T ∧ c = j * T.
Proof.
  unfold tile_keys. rewrite list_elem_of_bind. split.
  - intros (r' & Hc & Hr).
    apply list_elem_of_fmap in Hr as (i & -> & Hi%elem_of_seq).
    apply list_elem_of_fmap in Hc as (c' & [= -> ->] & Hc).
    apply list_elem_of_fmap in Hc as (j & -> & Hj%elem_of_seq).
    exists i, j. lia.
  - intros (i & j & Hi & Hj & -> & ->). exists (i * T). split.
    + apply list_elem_of_fmap. exists (j * T). split; [done|].
      apply list_elem_of_fmap. exists j. split; [done|]. apply elem_of_seq. lia.
    + apply list_elem_of_fmap. exists i. split; [done|]. apply elem_of_seq. lia.
Qed.

Lemma scaled_seq_NoDup T n : 0 < T → NoDup ((λ k, k * T) <$> seq 0 n).
Proof.
  intros HT. apply NoDup_fmap_2_strong; [|apply NoDup_seq].
  intros x y _ _ Hxy. nia.
Qed.

Lemma tile_keys_NoDup H W T : 0 < T → NoDup (tile_keys H W T).
Proof.
  intros HT. unfold tile_keys. apply NoDup_bind.
  - intros i i' k _ _ (j & -> & _)%list_elem_of_fmap (j' & [= ] & _)%list_elem_of_fmap.
    done.
  - intros i _. apply (NoDup_fmap_2 _). by apply scaled_seq_NoDup.
  - by apply scaled_seq_NoDup.
Qed.

Lemma length_bind_fmap {X Y Z} (f : X → Y → Z) (l : list X) (k : list Y) :
  length (l ≫= λ x, f x <$> k) = length l * length k.
Proof.
  induction l as [|x l IH]; [done|].
  cbn [mbind list_bind]. rewrite length_app, length_fmap.
  cbn [mbind] in IH. rewrite IH. simpl. done.
Qed.

Lemma tile_keys_length H W T : length (tile_keys H W T) = (H / T) * (W / T).
Proof.
  unfold tile_keys. by rewrite length_bind_fmap, !length_fmap, !length_seq.
Qed.

(** Every key of the key space denotes a block inside the raster. *)
Lemma tile_keys_fit H W T k :
  k ∈ tile_keys H W T → k.1 + T ≤ H ∧ k.2 + T ≤ W.
Proof.
  destruct k as [r c]. intros (i & j & Hi & Hj & -> & ->)%tile_keys_elem. simpl.
  destruct (decide (T = 0)) as [->|HT]; [simpl in Hi; lia|].
  pose proof (Nat.Div0.mul_div_le H T). pose proof (Nat.Div0.mul_div_le W T).
  nia.
Qed.

Lemma tile_at_shape {A} (img : ndarray3 A) H W C T k :
  shape3 img = (H, W, C) → k.1 + T ≤ H → k.2 + T ≤ W →
  shape3 (tile_at img T k) = (T, T, C).
Proof.
  intros Hshape Hr Hc. unfold tile_at.
  rewrite (slice3_shape _ _ _ _ _ _ _ _ Hshape). unfold slice_len.
  repeat f_equal; lia.
Qed.

(** C1. For a raster of shape (H, W, C) and a positive tile size T, the
    Tiler returns a TileSet whose keys are exactly the origins (i*T, j*T)
    with i < H/T and j < W/T, each once, so that it has (H/T)*(W/T) tiles;
    every tile has shape (T, T, C) and is the sub-array
    [row : row+T, col : col+T, :] of the input; a patch that the raster
    boundary would truncate has no key. *)
Theorem cut_into_tiles_spec {A} (img : ndarray3 A) (H W C T : nat) :
  wf3 img → shape3 img = (H, W, C) → 0 < T →
  ∃ tiles, cut_into_tiles img T = Ok tiles ∧
    NoDup (dict_keys tiles) ∧
    (∀ r c, (r, c) ∈ dict_keys tiles
            ↔ ∃ i j, i < H / T ∧ j < W / T ∧ r = i * T ∧ c = j * T) ∧
    length tiles = (H / T) * (W / T) ∧
    (∀ r c tile, dict_get (r, c) tiles = Some tile →
       shape3 tile = (T, T, C) ∧ wf3 tile ∧
       tile = slice3 img r (r + T) c (c + T) ∧
       ∀ x y ch, x < T → y < T →
         get3 tile x y ch = get3 img (r + x) (c + y) ch) ∧
    (∀ r c, H < r + T ∨ W < c + T → dict_get (r, c) tiles = None).
Proof.
  intros Hwf Hshape HT. eexists. split; [by eapply cut_into_tiles_eq|].
  rewrite dict_keys_fmap, length_fmap, tile_keys_length.
  split; [by apply tile_keys_NoDup|].
  split; [apply tile_keys_elem|]. split; [done|]. split.
  - intros r c tile Hget.
    assert ((r, c) ∈ tile_keys H W T) as Hin.
    { apply dec_stable. intros Hnot.
      rewrite <-(dict_keys_fmap (tile_at img T) (tile_keys H W T)) in Hnot.
      apply dict_get_None in Hnot. congruence. }
    rewrite dict_get_fmap in Hget by done. injection Hget as <-.
    apply tile_keys_fit in Hin as [Hr Hc].
    split; [by eapply tile_at_shape|].
    split; [by apply slice3_wf|]. split; [done|].
    intros x y ch Hx Hy. by apply slice3_get.
  - intros r c Hout. apply dict_get_None. rewrite dict_keys_fmap.
    intros [Hr Hc]%tile_keys_fit. simpl in *. lia.
Qed.

(** ** The Stitcher *)

Lemma mapM_lookup {X Y} (f : X → option Y) l k i :
  mapM f l = Some k → k !! i = l !! i ≫= f.
Proof.
  revert k i. induction l as [|x l IH]; intros k i; simpl.
  - by intros [= <-].
  - destruct (f x) as [y|] eqn:Hfx; simpl; [|done].
    destruct (mapM f l) as [k'|] eqn:Hk'; simpl; [|done].
    intros [= <-]. destruct i as [|i]; simpl; [done|]. by apply IH.
Qed.

Lemma chan0_ok {A} (t : ndarray3 A) h w C :
  shape3 t = (h, w, C) → wf3 t → 0 < C →
  ∃ v, chan0 t = Ok v ∧ shape2 v = (h, w) ∧ wf2 v ∧
       ∀ x y, get2 v x y = get3 t x y 0.
Proof.
  intros Hshape Hwf HC. unfold chan0, wf3 in *. rewrite Hshape in *.
  destruct Hwf as [Hlen Hrows]. rewrite Forall_forall in Hrows.
  rewrite decide_False by lia.
  assert (∀ row, row ∈ data3 t → is_Some (mapM head row)) as Hrow_ok.
  { intros row [_ Hpx]%Hrows. apply mapM_is_Some.
    eapply Forall_impl; [exact Hpx|]. intros [|a px] Hl; simpl in *; [lia|eauto]. }
  assert (is_Some (mapM (mapM head) (data3 t))) as [d Hd].
  { apply mapM_is_Some, Forall_forall. intros row Hrow. by apply Hrow_ok. }
  rewrite Hd. exists (Array2 (h, w) d). split; [done|]. split; [done|].
  pose proof (λ i, mapM_lookup _ _ _ i Hd) as Hlk. split.
  - unfold wf2. simpl. split.
    + apply length_mapM in Hd. lia.
    + apply Forall_lookup. intros x drow Hx.
      rewrite Hlk in Hx. destruct (data3 t !! x) as [row|] eqn:Hrow; [|done].
      simpl in Hx. apply length_mapM in Hx. rewrite <-Hx.
      apply list_elem_of_lookup_2, Hrows in Hrow. tauto.
  - intros x y. unfold get2, get3. simpl. rewrite Hlk.
    destruct (data3 t !! x) as [row|] eqn:Hrow; simpl; [|done].
    destruct (Hrow_ok row) as [drow Hdrow]; [by eapply list_elem_of_lookup_2|].
    rewrite Hdrow. simpl. rewrite (mapM_lookup _ _ _ y Hdrow).
    destruct (row !! y) as [px|]; simpl; [|done]. by destruct px.
Qed.

Lemma write_block_length {X} i j (blk rows : list (list X)) :
  length (write_block i j blk rows) = length rows.
Proof. unfold write_block. apply length_inserts. Qed.

(** Reading a cell after a block has been written inside the array. *)
Lemma write_block_get {X} i j (blk rows : list (list X)) n m h w x y :
  length blk = n → Forall (λ r, length r = m) blk →
  length rows = h → Forall (λ r, length r = w) rows →
  i + n ≤ h → j + m ≤ w →
  (row ← write_block i j blk rows !! x; row !! y)
  = if decide (covers_rect i j n m x y)
    then row ← blk !! (x - i); row !! (y - j)
    else row ← rows !! x; row !! y.
Proof.
  intros Hn Hblk Hh Hrows Hi Hj. unfold write_block, covers_rect.
  assert (length (zip_with (list_inserts j) blk (drop i rows)) = n) as Hz.
  { rewrite length_zip_with, length_drop. lia. }
  destruct (decide (i ≤ x < i + n)) as [Hx|Hx].
  - rewrite list_lookup_inserts by lia.
    rewrite lookup_zip_with, lookup_drop.
    replace (i + (x - i)) with x by lia.
    destruct (lookup_lt_is_Some_2 blk (x - i)) as [b Hb]; [lia|].
    destruct (lookup_lt_is_Some_2 rows x) as [r Hr]; [lia|].
    rewrite Hb, Hr. simpl.
    eapply Forall_lookup in Hblk; [|exact Hb].
    eapply Forall_lookup in Hrows; [|exact Hr]. simpl in *.
    destruct (decide (j ≤ y < j + m)) as [Hy|Hy].
    + rewrite decide_True by done. apply list_lookup_inserts; lia.
    + rewrite decide_False by tauto.
      destruct (decide (y < j)).
      * by apply list_lookup_inserts_lt.
      * apply list_lookup_inserts_ge. lia.
  - rewrite decide_False by tauto.
    destruct (decide (x < i)).
    + by rewrite list_lookup_inserts_lt.
    + rewrite list_lookup_inserts_ge; [done|lia].
Qed.

Lemma write_block_rows {X} i j (blk rows : list (list X)) w :
  Forall (λ r, length r = w) rows →
  Forall (λ r, length r = w) (write_block i j blk rows).
Proof.
  intros Hrows. apply Forall_lookup. intros x row.
  unfold write_block. rewrite list_lookup_inserts_Some.
  intros [[_ Hr]|(_ & _ & Hz)].
  - by eapply Forall_lookup in Hrows.
  - rewrite lookup_zip_with in Hz.
    destruct (blk !! _) as [b|]; simpl in Hz; [|done].
    destruct (drop i rows !! _) as [r|] eqn:Hr; simpl in Hz; [|done].
    injection Hz as <-. rewrite length_inserts.
    rewrite lookup_drop in Hr. by eapply Forall_lookup in Hrows.
Qed.

Section StitcherFacts.
Context {A F : Type} (fzero : F) (to_float : A → F).

Lemma zeros_wf h w : wf2 (zeros fzero h w).
Proof.
  unfold wf2, zeros. simpl. split; [apply length_replicate|].
  apply Forall_replicate, length_replicate.
Qed.

Lemma zeros_get h w x y :
  x < h → y < w → get2 (zeros fzero h w) x y = Some fzero.
Proof.
  intros Hx Hy. unfold get2, zeros. simpl.
  rewrite lookup_replicate_2 by done. simpl. by apply lookup_replicate_2.
Qed.

(** Copying a [(T, T)] array into a block that lies inside the target. *)
Lemma setitem_block_fit (full : ndarray2 F) (v : ndarray2 A) h w T r c :
  shape2 full = (h, w) → wf2 full → shape2 v = (T, T) → wf2 v →
  fits T h w (r, c) →
  ∃ full', setitem_block to_float full r (r + T) c (c + T) v = Ok full' ∧
    shape2 full' = (h, w) ∧ wf2 full' ∧
    ∀ x y, get2 full' x y
           = if decide (covers T (r, c) x y)
             then to_float <$> get2 v (x - r) (y - c)
             else get2 full x y.
Proof.
  intros Hsh Hwf Hshv Hwfv [Hr Hc]. simpl in Hr, Hc.
  unfold setitem_block, broadcast_to, wf2 in *. rewrite Hsh, Hshv in *.
  destruct Hwf as [Hlen Hrows], Hwfv as [Hlenv Hrowsv].
  assert (slice_len h r (r + T) = T) as -> by (unfold slice_len; lia).
  assert (slice_len w c (c + T) = T) as -> by (unfold slice_len; lia).
  rewrite decide_True by tauto. cbn [mbind result_bind].
  unfold stretch. rewrite decide_True by done.
  eexists. split; [done|]. split; [done|]. cbn [shape2 data2]. split.
  - split; [by rewrite write_block_length|]. by apply write_block_rows.
  - intros x y. unfold get2. cbn [data2].
    assert ((λ l : list A, if decide (T = T) then l else concat (replicate T l))
              <$> data2 v = data2 v) as ->.
    { rewrite <-(list_fmap_id (data2 v)) at 2. apply list_fmap_ext.
      intros ???. by rewrite decide_True. }
    rewrite (write_block_get r c _ _ T T h w).
    + unfold covers, covers_rect. simpl. unfold cast_block.
      case_decide; [|done].
      rewrite list_lookup_fmap.
      destruct (data2 v !! (x - r)) as [row|]; simpl; [|done].
      by rewrite list_lookup_fmap.
    + unfold cast_block. by rewrite length_fmap.
    + unfold cast_block. apply Forall_fmap.
      eapply Forall_impl; [exact Hrowsv|]. simpl. intros row <-.
      by rewrite length_fmap.
    + done.
    + done.
    + lia.
    + lia.
Qed.

(** [paint_cell]: the three ways a cell gets its final value. *)
Lemma paint_cell_app T (l1 l2 : tileset A) x y v0 :
  paint_cell to_float T (l1 ++ l2) x y v0
  = paint_cell to_float T l2 x y (paint_cell to_float T l1 x y v0).
Proof. unfold paint_cell. apply foldl_app. Qed.

Lemma paint_cell_uncovered T (tiles : tileset A) x y v0 :
  (∀ k t, (k, t) ∈ tiles → ¬ covers T k x y) →
  paint_cell to_float T tiles x y v0 = v0.
Proof.
  revert v0. induction tiles as [|[k t] tiles IH]; intros v0 Hun; [done|].
  unfold paint_cell in *. cbn [foldl].
  rewrite decide_False by (eapply Hun; left).
  apply IH. intros k' t' Hin. eapply Hun. by right.
Qed.

Lemma paint_cell_last T (l1 l2 : tileset A) k t x y v0 :
  covers T k x y →
  (∀ k' t', (k', t') ∈ l2 → ¬ covers T k' x y) →
  paint_cell to_float T (l1 ++ (k, t) :: l2) x y v0
  = to_float <$> get3 t (x - k.1) (y - k.2) 0.
Proof.
  intros Hcov Hlater. rewrite paint_cell_app.
  change ((k, t) :: l2) with ([(k, t)] ++ l2). rewrite paint_cell_app.
  rewrite paint_cell_uncovered by done.
  unfold paint_cell. cbn [foldl]. by rewrite decide_True.
Qed.

Lemma paint_cell_same T (tiles : tileset A) x y v0 u :
  (∃ k t, (k, t) ∈ tiles ∧ covers T k x y) →
  (∀ k t, (k, t) ∈ tiles → covers T k x y →
          to_float <$> get3 t (x - k.1) (y - k.2) 0 = u) →
  paint_cell to_float T tiles x y v0 = u.
Proof.
  intros (k & t & Hin & Hcov) Hsame.
  induction tiles as [|[k' t'] tiles IH] using rev_ind;
    [by apply elem_of_nil in Hin|].
  rewrite paint_cell_app. unfold paint_cell at 1. cbn [foldl].
  case_decide as Hc.
  - apply Hsame; [|done]. apply elem_of_app. right. left.
  - apply IH.
    + apply elem_of_app in Hin as [Hin|Hin]; [done|].
      apply list_elem_of_singleton in Hin. by injection Hin as -> ->.
    + intros k0 t0 Hin0. apply Hsame. apply elem_of_app. by left.
Qed.

(** The copy loop of [jahit_tiles] when every tile fits. *)
Lemma stitch_loop (tiles : tileset A) (full0 : ndarray2 F) h w T C :
  shape2 full0 = (h, w) → wf2 full0 → 0 < C →
  Forall (λ kt, tile_ok T C kt.2 ∧ fits T h w kt.1) tiles →
  ∃ full,
    foldlM (λ full '((i, j), tile),
              v ← chan0 tile;
              setitem_block to_float full i (i + T) j (j + T) v)
           full0 tiles = Ok full ∧
    shape2 full = (h, w) ∧ wf2 full ∧
    ∀ x y, get2 full x y = paint_cell to_float T tiles x y (get2 full0 x y).
Proof.
  intros Hsh Hwf HC Hall. revert full0 Hsh Hwf.
  induction Hall as [|[[r c] t] tiles [[Hts Htwf] Hfit] Hall IH];
    intros full0 Hsh Hwf.
  - exists full0. by repeat split.
  - cbn [foldlM]. simpl in Hts, Htwf, Hfit.
    destruct (chan0_ok t T T C Hts Htwf HC) as (v & -> & Hvs & Hvwf & Hv).
    cbn [mbind result_bind].
    destruct (setitem_block_fit full0 v h w T r c Hsh Hwf Hvs Hvwf Hfit)
      as (full' & -> & Hsh' & Hwf' & Hget).
    cbn [mbind result_bind].
    destruct (IH full' Hsh' Hwf') as (full & -> & ? & ? & Hfin).
    exists full. repeat split; [done..|].
    intros x y. rewrite Hfin, Hget. unfold paint_cell. cbn [foldl fst snd].
    by rewrite Hv.
Qed.

(** The loop when some tile does not fit and the tile size is at least 2:
    the first such tile cannot be broadcast into its clipped block. *)
Lemma stitch_loop_raise (tiles : tileset A) (full0 : ndarray2 F) h w T C :
  shape2 full0 = (h, w) → wf2 full0 → 0 < C → 2 ≤ T →
  Forall (λ kt, tile_ok T C kt.2) tiles →
  Exists (λ kt, ¬ fits T h w kt.1) tiles →
  foldlM (λ full '((i, j), tile),
            v ← chan0 tile;
            setitem_block to_float full i (i + T) j (j + T) v)
         full0 tiles = Raise ValueError.
Proof.
  intros Hsh Hwf HC HT Hall Hex. revert full0 Hsh Hwf.
  induction Hall as [|[[r c] t] tiles [Hts Htwf] Hall IH];
    intros full0 Hsh Hwf; [by apply Exists_nil in Hex|].
  cbn [foldlM]. simpl in Hts, Htwf.
  destruct (chan0_ok t T T C Hts Htwf HC) as (v & -> & Hvs & Hvwf & Hv).
  cbn [mbind result_bind].
  destruct (decide (fits T h w (r, c))) as [Hfit|Hnofit].
  - destruct (setitem_block_fit full0 v h w T r c Hsh Hwf Hvs Hvwf Hfit)
      as (full' & -> & Hsh' & Hwf' & _).
    cbn [mbind result_bind]. apply IH; [|done..].
    apply Exists_cons in Hex as [Hex|Hex]; [done|done].
  - unfold setitem_block, broadcast_to. rewrite Hsh, Hvs.
    rewrite decide_False; [done|].
    unfold fits, slice_len in *. simpl in Hnofit. lia.
Qed.

Lemma jahit_tiles_unfold (tiles : tileset A) k t rest_tiles h w rest :
  tiles = (k, t) :: rest_tiles →
  jahit_tiles fzero to_float tiles (h :: w :: rest)
  = foldlM (λ full '((i, j), tile),
              v ← chan0 tile;
              setitem_block to_float full i (i + (shape3 t).1.1)
                            j (j + (shape3 t).1.1) v)
           (zeros fzero h w) tiles.
Proof. by intros ->. Qed.
End StitcherFacts.

Section StitcherTheorems.
Context {A F : Type} (fzero : F) (to_float : A → F).
Implicit Types (tiles : tileset A).

Lemma jahit_tiles_paint tiles T C h w rest :
  tiles ≠ [] → 0 < C →
  Forall (λ kt, tile_ok T C kt.2 ∧ fits T h w kt.1) tiles →
  ∃ full, jahit_tiles fzero to_float tiles (h :: w :: rest) = Ok full ∧
    shape2 full = (h, w) ∧ wf2 full ∧
    ∀ x y, get2 full x y
           = paint_cell to_float T tiles x y (get2 (zeros fzero h w) x y).
Proof.
  intros Hne HC Hall. destruct tiles as [|[k0 t0] tiles0] eqn:Htiles; [done|].
  rewrite (jahit_tiles_unfold _ _ _ k0 t0 tiles0) by done.
  pose proof (Forall_inv Hall) as [[Hs0 _] _]. simpl in Hs0. rewrite Hs0.
  cbn [fst]. eapply stitch_loop; [done|apply zeros_wf|done..].
Qed.

(** C3 (amended). A non-empty mapping of well-formed tiles of shape
    (T, T, C), C >= 1, that fit inside (height, width) is stitched into a
    2-D array of shape (height, width), whatever follows height and width
    in the requested shape. A cell covered by no tile is 0.0; a covered
    cell holds channel 0 of the last tile, in iteration order, that covers
    it; so when no two tiles overlap, the region of every key is channel 0
    of its tile. *)
Theorem jahit_tiles_spec tiles T C h w rest :
  tiles ≠ [] → 0 < C →
  Forall (λ kt, tile_ok T C kt.2 ∧ fits T h w kt.1) tiles →
  ∃ full, jahit_tiles fzero to_float tiles (h :: w :: rest) = Ok full ∧
    shape2 full = (h, w) ∧ wf2 full ∧
    (∀ x y, x < h → y < w →
       (∀ k t, (k, t) ∈ tiles → ¬ covers T k x y) →
       get2 full x y = Some fzero) ∧
    (∀ l1 k t l2 x y,
       tiles = l1 ++ (k, t) :: l2 → covers T k x y →
       (∀ k' t', (k', t') ∈ l2 → ¬ covers T k' x y) →
       get2 full x y = to_float <$> get3 t (x - k.1) (y - k.2) 0) ∧
    ((∀ i j k t k' t' x y,
        i ≠ j → tiles !! i = Some (k, t) → tiles !! j = Some (k', t') →
        ¬ (covers T k x y ∧ covers T k' x y)) →
     ∀ k t, (k, t) ∈ tiles → region_is_tile to_float T full k t).
Proof.
  intros Hne HC Hall.
  destruct (jahit_tiles_paint tiles T C h w rest Hne HC Hall)
    as (full & Hrun & Hsh & Hwf & Hget).
  exists full. split; [done|]. split; [done|]. split; [done|].
  assert (∀ l1 k t l2 x y,
       tiles = l1 ++ (k, t) :: l2 → covers T k x y →
       (∀ k' t', (k', t') ∈ l2 → ¬ covers T k' x y) →
       get2 full x y = to_float <$> get3 t (x - k.1) (y - k.2) 0) as Hlast.
  { intros l1 k t l2 x y -> Hcov Hlater. rewrite Hget.
    by apply paint_cell_last. }
  split; [|split; [exact Hlast|]].
  - intros x y Hx Hy Hun. rewrite Hget, paint_cell_uncovered by done.
    by apply zeros_get.
  - intros Hdisj k t Hin x y Hx Hy.
    apply list_elem_of_lookup in Hin as [i Hi].
    rewrite (Hlast (take i tiles) k t (drop (S i) tiles)
                   (k.1 + x) (k.2 + y)).
    + by replace (k.1 + x - k.1) with x by lia;
        replace (k.2 + y - k.2) with y by lia.
    + by rewrite take_drop_middle.
    + unfold covers. lia.
    + intros k' t' [j Hj]%list_elem_of_lookup Hcov'.
      rewrite lookup_drop in Hj.
      apply (Hdisj i (S i + j) k t k' t' (k.1 + x) (k.2 + y));
        [lia|done..|].
      split; [unfold covers; lia|done].
Qed.

(** C10 (amended). When every tile has the inferred shape (T, T, C),
    C >= 1: if T >= 2 and some key has row + T > height or col + T > width,
    the copy fails with broadcast [ValueError] instead of clipping; if
    every key fits, the Stitcher returns and every copy targets a block of
    exactly T by T cells. For T = 1 a key outside the output is skipped
    silently. *)
Theorem jahit_tiles_bounds tiles T C h w rest :
  tiles ≠ [] → 0 < C → Forall (λ kt, tile_ok T C kt.2) tiles →
  (2 ≤ T → Exists (λ kt, ¬ fits T h w kt.1) tiles →
     jahit_tiles fzero to_float tiles (h :: w :: rest) = Raise ValueError) ∧
  (Forall (λ kt, fits T h w kt.1) tiles →
     (∃ full, jahit_tiles fzero to_float tiles (h :: w :: rest) = Ok full) ∧
     ∀ k t, (k, t) ∈ tiles →
       slice_len h k.1 (k.1 + T) = T ∧ slice_len w k.2 (k.2 + T) = T).
Proof.
  intros Hne HC Hok. split.
  - intros HT Hex. destruct tiles as [|[k0 t0] tiles0] eqn:Htiles; [done|].
    rewrite (jahit_tiles_unfold _ _ _ k0 t0 tiles0) by done.
    pose proof (Forall_inv Hok) as [Hs0 _]. simpl in Hs0. rewrite Hs0.
    cbn [fst]. eapply stitch_loop_raise; [done|apply zeros_wf|done..].
  - intros Hfit. split.
    + destruct (jahit_tiles_paint tiles T C h w rest Hne HC) as (full & ? & _).
      * apply Forall_forall. intros kt Hkt. rewrite Forall_forall in Hok, Hfit.
        auto.
      * by exists full.
    + intros k t Hin. rewrite Forall_forall in Hfit.
      destruct (Hfit _ Hin) as [Hr Hc]. simpl in Hr, Hc.
      unfold slice_len. lia.
Qed.

(** C7 (amended). On the empty mapping the Stitcher raises
    [StopIteration], the fault of [next] on an empty iterator, whatever
    shape is requested; it never returns an array. *)
Theorem jahit_tiles_empty output_shape :
  jahit_tiles fzero to_float ([] : tileset A) output_shape
  = Raise StopIteration.
Proof. reflexivity. Qed.
End StitcherTheorems.

Ltac list_mem :=
  unfold dict_keys; simpl; intros;
  repeat (rewrite ?NoDup_cons, ?elem_of_cons, ?elem_of_nil in *);
  repeat split; try apply NoDup_nil_2; intuition congruence.

Ltac wf_concrete :=
  unfold tile_ok, fits, wf3, wf2; simpl; repeat (split || constructor); lia.

Lemma cut_into_tiles_spec_witness :
  ∃ tiles, cut_into_tiles img_demo 2 = Ok tiles ∧ length tiles = 2
           ∧ dict_get (2, 0) tiles = None.
Proof.
  destruct (cut_into_tiles_spec img_demo 3 5 1 2)
    as (tiles & Hrun & _ & _ & Hlen & _ & Hout).
  - wf_concrete.
  - reflexivity.
  - lia.
  - exists tiles. split; [exact Hrun|]. split; [exact Hlen|].
    apply Hout. lia.
Defined.

Lemma jahit_tiles_spec_witness :
  ∃ full, jahit_tiles 0%Z Z.of_nat tiles_demo [3; 5; 1] = Ok full ∧
          shape2 full = (3, 5) ∧ get2 full 2 4 = Some 0%Z.
Proof.
  destruct (jahit_tiles_spec 0%Z Z.of_nat tiles_demo 2 1 3 5 [1])
    as (full & Hrun & Hsh & _ & Hzero & _).
  - discriminate.
  - lia.
  - repeat constructor; wf_concrete.
  - exists full. split; [exact Hrun|]. split; [exact Hsh|].
    apply Hzero; [lia..|].
    intros k t Hin. unfold tiles_demo in Hin.
    repeat (apply elem_of_cons in Hin as [[= -> ->]|Hin];
            [unfold covers; simpl; lia|]).
    by apply elem_of_nil in Hin.
Defined.

(** C3, as stated, fails when tiles overlap: both tiles have side 2 and fit
    inside (3, 3), but the cell (1, 1) of the region of key (0, 0) holds the
    value of the tile copied later. *)
Lemma jahit_tiles_overlap_counterexample :
  tiles_overlap ≠ [] ∧
  Forall (λ kt, tile_ok 2 1 kt.2 ∧ fits 2 3 3 kt.1) tiles_overlap ∧
  ¬ ∃ full, jahit_tiles 0%Z Z.of_nat tiles_overlap [3; 3] = Ok full ∧
      ∀ k t, dict_get k tiles_overlap = Some t →
             region_is_tile Z.of_nat 2 full k t.
Proof.
  split; [discriminate|]. split; [repeat constructor; wf_concrete|].
  intros (full & Hrun & Hreg). vm_compute in Hrun. injection Hrun as <-.
  specialize (Hreg (0, 0) tile_ones eq_refl 1 1 ltac:(lia) ltac:(lia)).
  vm_compute in Hreg. discriminate.
Qed.

Lemma jahit_tiles_bounds_witness :
  jahit_tiles 0%Z Z.of_nat tiles_demo [2; 3] = Raise ValueError ∧
  ∃ full, jahit_tiles 0%Z Z.of_nat tiles_demo [3; 5] = Ok full.
Proof.
  split.
  - apply (jahit_tiles_bounds 0%Z Z.of_nat tiles_demo 2 1 2 3 []).
    + discriminate.
    + lia.
    + repeat constructor; wf_concrete.
    + lia.
    + apply Exists_cons_tl, Exists_cons_hd. unfold fits. simpl. lia.
  - apply (jahit_tiles_bounds 0%Z Z.of_nat tiles_demo 2 1 3 5 []).
    + discriminate.
    + lia.
    + repeat constructor; wf_concrete.
    + repeat constructor; wf_concrete.
Defined.

(** C10, as stated, fails for tiles of side 1: the key (5, 0) lies outside
    the (2, 2) output, the clipped target block is empty, the (1, 1) tile
    broadcasts into it, and the Stitcher returns the untouched zero array. *)
Lemma jahit_tiles_unit_tile_out_of_bounds :
  Forall (λ kt, tile_ok 1 1 kt.2) tiles_oob ∧
  Exists (λ kt, ¬ fits 1 2 2 kt.1) tiles_oob ∧
  jahit_tiles 0%Z Z.of_nat tiles_oob [2; 2]
  = Ok (Array2 (2, 2) [ [0; 0]; [0; 0] ]%Z).
Proof.
  split; [repeat constructor; wf_concrete|]. split; [|reflexivity].
  apply Exists_cons_hd. unfold fits. simpl. lia.
Qed.

(** C7, as stated, fails: the error raised on the empty mapping is the
    iteration fault itself. *)
Lemma jahit_tiles_empty_counterexample :
  ¬ ∃ e, jahit_tiles 0%Z Z.of_nat ([] : tileset nat) [2; 2] = Raise e
         ∧ e ≠ StopIteration.
Proof. intros (e & [= <-] & Hne). by apply Hne. Qed.

(** ** Tiler and Stitcher together *)

Lemma tile_keys_small H W T : H < T ∨ W < T → tile_keys H W T = [].
Proof.
  intros Hsmall. apply nil_length_inv. rewrite tile_keys_length.
  destruct Hsmall; [rewrite (Nat.div_small H T)|rewrite (Nat.div_small W T)];
    lia.
Qed.

(** With [T] dividing [H] and [W], every cell lies in the block of a key. *)
Lemma tile_keys_cover H W T x y :
  0 < T → H `mod` T = 0 → W `mod` T = 0 → x < H → y < W →
  (x / T * T, y / T * T) ∈ tile_keys H W T ∧
  covers T (x / T * T, y / T * T) x y.
Proof.
  intros HT HH HW Hx Hy.
  pose proof (Nat.div_mod_eq H T). pose proof (Nat.div_mod_eq W T).
  pose proof (Nat.div_mod_eq x T). pose proof (Nat.div_mod_eq y T).
  pose proof (Nat.mod_upper_bound x T ltac:(lia)).
  pose proof (Nat.mod_upper_bound y T ltac:(lia)).
  split.
  - apply tile_keys_elem. exists (x / T), (y / T).
    repeat split; [nia|nia].
  - unfold covers. simpl. nia.
Qed.

Section TilerStitcher.
Context {A F : Type} (fzero : F) (to_float : A → F).

(** C9. A raster lower or narrower than the tile size is tiled into the
    empty TileSet without any error, and the Stitcher applied to that
    TileSet is in its empty-mapping case: it raises [StopIteration]. *)
Theorem cut_into_tiles_small (img : ndarray3 A) (H W C T : nat) :
  shape3 img = (H, W, C) → H < T ∨ W < T →
  ∃ tiles, cut_into_tiles img T = Ok tiles ∧ tiles = [] ∧
    ∀ output_shape,
      jahit_tiles fzero to_float tiles output_shape = Raise StopIteration.
Proof.
  intros Hshape Hsmall. exists []. split; [|done].
  rewrite (cut_into_tiles_eq img H W C T) by (done || lia).
  by rewrite tile_keys_small.
Qed.

(** C2 (amended). For a single-band raster whose height and width are
    positive multiples of T, the Tiler followed by the Stitcher with the
    target (H, W) returns an array of shape (H, W) whose every cell is the
    band value of the raster at that cell, converted to the float type of
    the output. The TileSet has the keys [tile_keys H W T]. *)
Theorem tile_stitch_roundtrip (img : ndarray3 A) (H W T : nat) rest :
  wf3 img → shape3 img = (H, W, 1) → 0 < H → 0 < W →
  H `mod` T = 0 → W `mod` T = 0 →
  ∃ tiles full,
    cut_into_tiles img T = Ok tiles ∧
    dict_keys tiles = tile_keys H W T ∧
    jahit_tiles fzero to_float tiles (H :: W :: rest) = Ok full ∧
    shape2 full = (H, W) ∧ wf2 full ∧
    ∀ x y, x < H → y < W → get2 full x y = to_float <$> get3 img x y 0.
Proof.
  intros Hwf Hshape HH HW HmH HmW.
  assert (0 < T) as HT.
  { destruct T; [|lia]. simpl in HmH. lia. }
  set (tiles := (λ k, (k, tile_at img T k)) <$> tile_keys H W T).
  assert (∀ k t, (k, t) ∈ tiles → k ∈ tile_keys H W T ∧ t = tile_at img T k)
    as Helem.
  { intros k t (k' & [= -> ->] & Hk)%list_elem_of_fmap. done. }
  destruct (jahit_tiles_paint fzero to_float tiles T 1 H W rest)
    as (full & Hrun & Hsh & Hwf' & Hget).
  - destruct (tile_keys_cover H W T 0 0 HT HmH HmW HH HW) as [Hin _].
    intros Hnil. unfold tiles in Hnil. apply fmap_nil_inv in Hnil.
    rewrite Hnil in Hin. by apply elem_of_nil in Hin.
  - lia.
  - apply Forall_forall. intros [k t] [Hk ->]%Helem. simpl.
    pose proof (tile_keys_fit _ _ _ _ Hk) as [Hr Hc].
    split; [|done]. split; [by eapply tile_at_shape|by apply slice3_wf].
  - exists tiles, full. split; [by eapply cut_into_tiles_eq|].
    split; [apply dict_keys_fmap|]. do 3 (split; [done|]).
    intros x y Hx Hy. rewrite Hget. apply paint_cell_same.
    + destruct (tile_keys_cover H W T x y HT HmH HmW Hx Hy) as [Hin Hcov].
      eexists _, _. split; [|exact Hcov].
      apply list_elem_of_fmap. eexists. split; [reflexivity|exact Hin].
    + intros k t [Hk ->]%Helem [Hcr Hcc]. unfold tile_at.
      rewrite slice3_get by lia.
      by replace (k.1 + (x - k.1)) with x by lia;
         replace (k.2 + (y - k.2)) with y by lia.
Qed.
End TilerStitcher.

Lemma cut_into_tiles_small_witness :
  ∃ tiles, cut_into_tiles img_demo 4 = Ok tiles ∧ tiles = [] ∧
    ∀ output_shape,
      jahit_tiles 0%Z Z.of_nat tiles output_shape = Raise StopIteration.
Proof.
  apply (cut_into_tiles_small 0%Z Z.of_nat img_demo 3 5 1 4).
  - reflexivity.
  - left. lia.
Defined.

Lemma tile_stitch_roundtrip_witness :
  ∃ tiles full,
    cut_into_tiles img_even 2 = Ok tiles ∧
    dict_keys tiles = tile_keys 2 4 2 ∧
    jahit_tiles 0%Z Z.of_nat tiles [2; 4] = Ok full ∧
    shape2 full = (2, 4) ∧ wf2 full ∧
    ∀ x y, x < 2 → y < 4 → get2 full x y = Z.of_nat <$> get3 img_even x y 0.
Proof.
  apply (tile_stitch_roundtrip 0%Z Z.of_nat img_even 2 4 2 []).
  - wf_concrete.
  - reflexivity.
  - lia.
  - lia.
  - reflexivity.
  - reflexivity.
Defined.

(** The key space of the 448 by 448 raster cut with T = 224. *)
Lemma tile_keys_448 :
  tile_keys 448 448 224 = [ (0, 0); (0, 224); (224, 0); (224, 224) ].
Proof. by vm_compute. Qed.

(** C2, as stated, fails for a raster without rows: 0 is a multiple of
    every T, the TileSet is empty and the Stitcher raises. *)
Lemma roundtrip_empty_raster_counterexample :
  wf3 img_empty ∧ shape3 img_empty = (0, 0, 1) ∧
  0 `mod` 1 = 0 ∧
  cut_into_tiles img_empty 1 = Ok [] ∧
  ¬ ∃ tiles full,
      cut_into_tiles img_empty 1 = Ok tiles ∧
      jahit_tiles 0%Z Z.of_nat tiles [0; 0] = Ok full.
Proof.
  split; [wf_concrete|]. do 3 (split; [reflexivity|]).
  intros (tiles & full & [= <-] & Hrun). discriminate.
Qed.

(** ** The DatasetSplitter *)

Lemma mapM_result_Forall2 {X Y} (f : X → result Y) l k :
  mapM f l = Ok k → Forall2 (λ x y, f x = Ok y) l k.
Proof.
  revert k. induction l as [|x l IH]; intros k; simpl.
  - intros [= <-]. constructor.
  - destruct (f x) as [y|e] eqn:Hfx; simpl; [|done].
    destruct (mapM f l) as [k'|e] eqn:Hk'; simpl; [|done].
    intros [= <-]. constructor; auto.
Qed.

Lemma mapM_result_Ok {X Y} (f : X → result Y) (g : X → Y) l :
  Forall (λ x, f x = Ok (g x)) l → mapM f l = Ok (g <$> l).
Proof.
  induction 1 as [|x l Hx _ IH]; simpl; [done|].
  rewrite Hx. simpl. by rewrite IH.
Qed.

(** The first failing element decides the error of [mapM]. *)
Lemma mapM_result_Raise {X Y} (f : X → result Y) l :
  Exists (λ x, ∃ e, f x = Raise e) l →
  ∃ x e, x ∈ l ∧ f x = Raise e ∧ mapM f l = Raise e.
Proof.
  induction l as [|x l IH]; intros Hex; [by apply Exists_nil in Hex|].
  simpl. destruct (f x) as [y|e] eqn:Hfx; simpl.
  - apply Exists_cons in Hex as [[e He]|Hex]; [congruence|].
    destruct (IH Hex) as (x' & e & Hin & Hfx' & ->).
    exists x', e. split; [by right|done].
  - exists x, e. split; [left|done].
Qed.

Lemma getitem_Ok {V} (d : dict V) k v : getitem d k = Ok v ↔ dict_get k d = Some v.
Proof. unfold getitem. destruct (dict_get k d); split; congruence. Qed.

Lemma getitem_Raise {V} (d : dict V) k e :
  getitem d k = Raise e ↔ e = KeyError k ∧ k ∉ dict_keys d.
Proof.
  unfold getitem. destruct (dict_get k d) as [v|] eqn:Hget.
  - split; [done|]. intros [_ Hk]. apply dict_get_None in Hk. congruence.
  - apply dict_get_None in Hget. split; [intros [= <-]|intros [-> _]]; done.
Qed.

Lemma dict_get_is_Some {V} (d : dict V) k : is_Some (dict_get k d) ↔ k ∈ dict_keys d.
Proof.
  rewrite <-not_eq_None_Some, dict_get_None. split; [apply dec_stable|auto].
Qed.

Lemma np_array_Ok {X} (l k : list (ndarray3 X)) : np_array l = Ok k → k = l.
Proof.
  unfold np_array. destruct l; [congruence|]. case_decide; congruence.
Qed.

Lemma np_array_uniform {X} (l : list (ndarray3 X)) s :
  Forall (λ t, shape3 t = s) l → np_array l = Ok l.
Proof.
  intros Hall. unfold np_array. destruct l as [|t l]; [done|].
  rewrite decide_True; [done|].
  pose proof (Forall_inv Hall) as Ht. simpl in Ht. rewrite Ht. exact Hall.
Qed.

(** Gathering the tiles at keys that are all present, from a uniform
    TileSet. *)
Lemma gather_Ok {X} (d : tileset X) keys :
  uniform d → Forall (λ k, k ∈ dict_keys d) keys →
  ∃ l, (mapM (getitem d) keys ≫= np_array) = Ok l ∧ gathered d keys l.
Proof.
  intros [s Hs] Hkeys.
  assert (∃ l, mapM (getitem d) keys = Ok l) as [l Hl].
  { induction Hkeys as [|k keys Hk _ [l IH]]; simpl; [by eexists|].
    apply dict_get_is_Some in Hk as [v Hv].
    rewrite (proj2 (getitem_Ok d k v) Hv), IH. simpl. by eexists. }
  pose proof (mapM_result_Forall2 _ _ _ Hl) as H2.
  exists l. rewrite Hl. cbn [mbind result_bind]. split.
  - apply (np_array_uniform _ s). apply Forall_forall. intros t Ht.
    apply list_elem_of_lookup in Ht as [i Hi].
    destruct (Forall2_lookup_r _ _ _ _ _ H2 Hi) as (k & _ & Hk%getitem_Ok).
    apply dict_get_Some_elem in Hk. rewrite Forall_forall in Hs.
    by apply (Hs (k, t)).
  - split; [symmetry; by eapply Forall2_length|].
    intros i k Hi. destruct (Forall2_lookup_l _ _ _ _ _ H2 Hi) as (v & ? & ?%getitem_Ok).
    eauto.
Qed.

Lemma gather_inv {X} (d : tileset X) keys l :
  (mapM (getitem d) keys ≫= np_array) = Ok l → gathered d keys l.
Proof.
  destruct (mapM (getitem d) keys) as [l'|e] eqn:Hl'; [|done].
  cbn [mbind result_bind]. intros ->%np_array_Ok.
  pose proof (mapM_result_Forall2 _ _ _ Hl') as H2. split.
  - symmetry; by eapply Forall2_length.
  - intros i k Hi. destruct (Forall2_lookup_l _ _ _ _ _ H2 Hi) as (v & ? & ?%getitem_Ok).
    eauto.
Qed.

(** Gathering at a key list with a key that is missing from the TileSet. *)
Lemma gather_missing {X} (d : tileset X) keys :
  Exists (λ k, k ∉ dict_keys d) keys →
  ∃ k, k ∈ keys ∧ (k ∉ dict_keys d) ∧
       (mapM (getitem d) keys ≫= np_array) = Raise (KeyError k).
Proof.
  intros Hex. destruct (mapM_result_Raise (getitem d) keys) as (k & e & Hin & He & ->).
  - eapply Exists_impl; [exact Hex|]. intros k Hk. exists (KeyError k).
    by apply getitem_Raise.
  - apply getitem_Raise in He as [-> Hk]. by exists k.
Qed.

Lemma omap_lookup_seq {X} (pre xs : list X) :
  omap (λ i, (pre ++ xs) !! i) (seq (length pre) (length xs)) = xs.
Proof.
  revert pre. induction xs as [|x xs IH]; intros pre; [done|].
  cbn [length seq omap list_omap]. rewrite list_lookup_middle by done.
  f_equal. specialize (IH (pre ++ [x])).
  rewrite length_app, Nat.add_1_r, <-app_assoc in IH. exact IH.
Qed.

Lemma mapM_index {X} (xs : list X) l :
  Forall (λ i, i < length xs) l →
  mapM (index xs) l = Ok (omap (λ i, xs !! i) l) ∧
  length (omap (λ i, xs !! i) l) = length l.
Proof.
  induction 1 as [|i l Hi _ [IH1 IH2]]; [done|].
  cbn [mapM omap list_omap]. unfold index in *.
  apply lookup_lt_is_Some_2 in Hi as [x Hx]. rewrite Hx.
  cbn [mbind result_bind]. rewrite IH1. cbn [mbind result_bind mret result_ret].
  split; [done|]. simpl. by rewrite IH2.
Qed.

Lemma n_test_of_lt n : 2 ≤ n → 0 < n_test_of n < n.
Proof.
  intros Hn. unfold n_test_of.
  pose proof (Nat.div_mod_eq (n + 4) 5).
  pose proof (Nat.mod_upper_bound (n + 4) 5 ltac:(lia)). lia.
Qed.

(** The sizes chosen by [train_test_split]: the test size is the ceiling of
    a fifth of [n], which is [round(0.2 n)] or one more. *)
Lemma n_test_of_round n : round_fifth n ≤ n_test_of n ≤ round_fifth n + 1.
Proof.
  unfold n_test_of, round_fifth.
  pose proof (Nat.div_mod_eq (n + 4) 5).
  pose proof (Nat.mod_upper_bound (n + 4) 5 ltac:(lia)).
  pose proof (Nat.div_mod_eq (2 * n + 5) 10).
  pose proof (Nat.mod_upper_bound (2 * n + 5) 10 ltac:(lia)). lia.
Qed.

Lemma train_test_split_Ok {X} (perm : list nat) (xs : list X) :
  2 ≤ length xs → perm ≡ₚ seq 0 (length xs) →
  ∃ train test, train_test_split perm xs = Ok (train, test) ∧
    length test = n_test_of (length xs) ∧
    length train = length xs - n_test_of (length xs) ∧
    test ++ train ≡ₚ xs.
Proof.
  intros Hn Hperm. pose proof (n_test_of_lt _ Hn) as Hnt.
  assert (length perm = length xs) as Hlen.
  { by rewrite Hperm, length_seq. }
  assert (Forall (λ i, i < length xs) perm) as Hbound.
  { apply Forall_forall. intros i Hi. rewrite Hperm in Hi.
    apply elem_of_seq in Hi. lia. }
  unfold train_test_split. rewrite decide_False by lia.
  unfold py_slice. rewrite Nat.sub_0_r, drop_0.
  replace (n_test_of (length xs) + (length xs - n_test_of (length xs))
           - n_test_of (length xs))
    with (length xs - n_test_of (length xs)) by lia.
  rewrite (take_ge (drop _ perm)) by (rewrite length_drop; lia).
  destruct (mapM_index xs (drop (n_test_of (length xs)) perm)) as [-> Hl1];
    [by apply Forall_drop|].
  destruct (mapM_index xs (take (n_test_of (length xs)) perm)) as [-> Hl2];
    [by apply Forall_take|].
  cbn [mbind result_bind]. eexists _, _. split; [done|].
  rewrite Hl1, Hl2, length_take, length_drop.
  split; [lia|]. split; [lia|].
  rewrite <-omap_app, take_drop, Hperm.
  pose proof (omap_lookup_seq [] xs) as E. simpl in E. by rewrite E.
Qed.

Lemma train_test_split_small {X} (perm : list nat) (xs : list X) :
  length xs < 2 → train_test_split perm xs = Raise ValueError.
Proof.
  intros Hn. unfold train_test_split, n_test_of. rewrite decide_True; [done|].
  destruct xs as [|x [|y xs]]; simpl in *; [done|done|lia].
Qed.

Section SplitterFacts.
Context {A B : Type}.
Implicit Types (sat : tileset A) (veg : tileset B).

(** Whatever [split_tiles] returns is gathered key by key. *)
Lemma split_tiles_aligned perm sat veg train test st vt se ve :
  split_tiles perm sat veg = Ok (train, test, st, vt, se, ve) →
  train_test_split perm (dict_keys sat) = Ok (train, test) ∧
  gathered sat train st ∧ gathered veg train vt ∧
  gathered sat test se ∧ gathered veg test ve.
Proof.
  unfold split_tiles.
  destruct (train_test_split perm (dict_keys sat)) as [[tr te]|e]; [|done].
  cbn [mbind result_bind].
  destruct (mapM (getitem sat) tr ≫= np_array) as [l1|e] eqn:H1; [|done].
  cbn [mbind result_bind].
  destruct (mapM (getitem veg) tr ≫= np_array) as [l2|e] eqn:H2; [|done].
  cbn [mbind result_bind].
  destruct (mapM (getitem sat) te ≫= np_array) as [l3|e] eqn:H3; [|done].
  cbn [mbind result_bind].
  destruct (mapM (getitem veg) te ≫= np_array) as [l4|e] eqn:H4; [|done].
  cbn [mbind result_bind]. intros [= <- <- <- <- <- <-].
  split; [done|]. do 3 (split; [by apply gather_inv|]). by apply gather_inv.
Qed.

(** The split key lists are drawn from the satellite keys. *)
Lemma split_keys_subset perm sat train test :
  2 ≤ length sat → perm ≡ₚ seq 0 (length sat) →
  train_test_split perm (dict_keys sat) = Ok (train, test) →
  length test = n_test_of (length sat) ∧
  length train = length sat - n_test_of (length sat) ∧
  test ++ train ≡ₚ dict_keys sat.
Proof.
  intros HN Hperm Hsplit.
  destruct (train_test_split_Ok perm (dict_keys sat))
    as (tr & te & Hrun & Hlte & Hltr & Hp).
  - unfold dict_keys. by rewrite length_fmap.
  - unfold dict_keys. by rewrite length_fmap.
  - rewrite Hrun in Hsplit. injection Hsplit as <- <-.
    unfold dict_keys in *. rewrite length_fmap in *. done.
Qed.

(** [split_tiles] returns when every satellite key has a label tile. *)
Lemma split_tiles_Ok perm sat veg :
  2 ≤ length sat → perm ≡ₚ seq 0 (length sat) →
  uniform sat → uniform veg →
  (∀ k, k ∈ dict_keys sat → k ∈ dict_keys veg) →
  ∃ train test st vt se ve,
    split_tiles perm sat veg = Ok (train, test, st, vt, se, ve) ∧
    train_test_split perm (dict_keys sat) = Ok (train, test).
Proof.
  intros HN Hperm Hus Huv Hsub.
  destruct (train_test_split_Ok perm (dict_keys sat))
    as (train & test & Hrun & _ & _ & Hp).
  { unfold dict_keys. by rewrite length_fmap. }
  { unfold dict_keys. by rewrite length_fmap. }
  assert (∀ k, k ∈ train ∨ k ∈ test → k ∈ dict_keys sat) as Hin.
  { intros k Hk. rewrite <-Hp, elem_of_app. tauto. }
  destruct (gather_Ok sat train Hus) as (st & Hst & _).
  { apply Forall_forall. auto. }
  destruct (gather_Ok veg train Huv) as (vt & Hvt & _).
  { apply Forall_forall. auto. }
  destruct (gather_Ok sat test Hus) as (se & Hse & _).
  { apply Forall_forall. auto. }
  destruct (gather_Ok veg test Huv) as (ve & Hve & _).
  { apply Forall_forall. auto. }
  exists train, test, st, vt, se, ve. split; [|done].
  unfold split_tiles. rewrite Hrun. cbn [mbind result_bind].
  rewrite Hst. cbn [mbind result_bind]. rewrite Hvt. cbn [mbind result_bind].
  rewrite Hse. cbn [mbind result_bind]. rewrite Hve. done.
Qed.

(** C6 (amended). For TileSets of N >= 2 tiles (with a label tile for
    every satellite key and tiles of one shape), [split_tiles], whose test
    fraction is fixed to 0.2, returns a train and a test key list with
    |train| + |test| = N, without common or repeated keys, whose union is
    the key set, and with |test| = ceil(N / 5), which is round(0.2 N) or
    one more. *)
Theorem split_tiles_partition perm sat veg :
  NoDup (dict_keys sat) → 2 ≤ length sat → perm ≡ₚ seq 0 (length sat) →
  uniform sat → uniform veg →
  (∀ k, k ∈ dict_keys sat → k ∈ dict_keys veg) →
  ∃ train test st vt se ve,
    split_tiles perm sat veg = Ok (train, test, st, vt, se, ve) ∧
    length train + length test = length sat ∧
    (∀ k, k ∈ train → k ∉ test) ∧
    NoDup train ∧ NoDup test ∧
    (∀ k, k ∈ dict_keys sat ↔ k ∈ train ∨ k ∈ test) ∧
    length test = n_test_of (length sat) ∧
    round_fifth (length sat) ≤ length test ≤ round_fifth (length sat) + 1.
Proof.
  intros Hnd HN Hperm Hus Huv Hsub.
  destruct (split_tiles_Ok perm sat veg HN Hperm Hus Huv Hsub)
    as (train & test & st & vt & se & ve & Hrun & Hsplit).
  destruct (split_keys_subset perm sat train test HN Hperm Hsplit)
    as (Hlte & Hltr & Hp).
  exists train, test, st, vt, se, ve. split; [done|].
  pose proof (n_test_of_lt _ HN). pose proof (n_test_of_round (length sat)).
  rewrite <-Hp in Hnd. apply NoDup_app in Hnd as (Hnte & Hdisj & Hntr).
  split; [lia|]. split; [intros k Hk Hk'; by apply (Hdisj k)|].
  do 2 (split; [done|]). split; [|lia].
  intros k. rewrite <-Hp, elem_of_app. tauto.
Qed.

(** C5. For TileSets with the same key space, in every output of the
    DatasetSplitter the k-th entries of sat_train and veg_train are the
    tiles stored under the k-th train key, and the k-th entries of sat_test
    and veg_test those under the k-th test key; and the DatasetSplitter
    does return such an output when there are at least two tiles and each
    TileSet has tiles of one shape. *)
Theorem split_tiles_pairing perm sat veg :
  (∀ k, k ∈ dict_keys sat ↔ k ∈ dict_keys veg) →
  (∀ train test st vt se ve,
     split_tiles perm sat veg = Ok (train, test, st, vt, se, ve) →
     gathered sat train st ∧ gathered veg train vt ∧
     gathered sat test se ∧ gathered veg test ve) ∧
  (2 ≤ length sat → perm ≡ₚ seq 0 (length sat) → uniform sat → uniform veg →
   ∃ train test st vt se ve,
     split_tiles perm sat veg = Ok (train, test, st, vt, se, ve)).
Proof.
  intros Hkeys. split.
  - intros train test st vt se ve Hrun.
    by apply split_tiles_aligned in Hrun as (_ & ? & ? & ? & ?).
  - intros HN Hperm Hus Huv.
    destruct (split_tiles_Ok perm sat veg HN Hperm Hus Huv)
      as (train & test & st & vt & se & ve & Hrun & _).
    + intros k. apply Hkeys.
    + by exists train, test, st, vt, se, ve.
Qed.

(** C4 (amended). With at least two satellite tiles and tiles of one
    shape in each TileSet: if some satellite key has no label tile,
    gathering raises [KeyError] for such a key; label tiles under keys
    that the satellite TileSet lacks are ignored, the DatasetSplitter
    then returns, and whatever it returns is gathered key by key. *)
Theorem split_tiles_key_mismatch perm sat veg :
  2 ≤ length sat → perm ≡ₚ seq 0 (length sat) → uniform sat → uniform veg →
  ((∃ k, k ∈ dict_keys sat ∧ k ∉ dict_keys veg) →
   ∃ k, split_tiles perm sat veg = Raise (KeyError k) ∧
        k ∈ dict_keys sat ∧ k ∉ dict_keys veg) ∧
  ((∀ k, k ∈ dict_keys sat → k ∈ dict_keys veg) →
   ∃ train test st vt se ve,
     split_tiles perm sat veg = Ok (train, test, st, vt, se, ve)) ∧
  (∀ train test st vt se ve,
     split_tiles perm sat veg = Ok (train, test, st, vt, se, ve) →
     gathered sat train st ∧ gathered veg train vt ∧
     gathered sat test se ∧ gathered veg test ve).
Proof.
  intros HN Hperm Hus Huv. split; [|split].
  - intros (k & Hks & Hkv).
    destruct (train_test_split_Ok perm (dict_keys sat))
      as (train & test & Hrun & _ & _ & Hp).
    { unfold dict_keys. by rewrite length_fmap. }
    { unfold dict_keys. by rewrite length_fmap. }
    assert (∀ k, k ∈ train ∨ k ∈ test → k ∈ dict_keys sat) as Hin.
    { intros k' Hk'. rewrite <-Hp, elem_of_app. tauto. }
    destruct (gather_Ok sat train Hus) as (st & Hst & _).
    { apply Forall_forall. auto. }
    destruct (gather_Ok sat test Hus) as (se & Hse & _).
    { apply Forall_forall. auto. }
    unfold split_tiles. rewrite Hrun. cbn [mbind result_bind].
    rewrite Hst. cbn [mbind result_bind].
    destruct (decide (Exists (λ k, k ∉ dict_keys veg) train)) as [Hex|Hall].
    + destruct (gather_missing veg train Hex) as (k' & Hk' & Hmiss & ->).
      exists k'. auto.
    + apply not_Exists_Forall in Hall; [|apply _].
      destruct (gather_Ok veg train Huv) as (vt & -> & _).
      { eapply Forall_impl; [exact Hall|]. intros k'. apply dec_stable. }
      cbn [mbind result_bind]. rewrite Hse. cbn [mbind result_bind].
      destruct (gather_missing veg test) as (k' & Hk' & Hmiss & ->).
      * apply Exists_exists. exists k. split; [|done].
        rewrite <-Hp, elem_of_app in Hks. destruct Hks as [?|Hktr]; [done|].
        rewrite Forall_forall in Hall. by destruct (Hall k Hktr).
      * exists k'. auto.
  - intros Hsub.
    destruct (split_tiles_Ok perm sat veg HN Hperm Hus Huv Hsub)
      as (train & test & st & vt & se & ve & Hrun & _).
    by exists train, test, st, vt, se, ve.
  - intros train test st vt se ve Hrun.
    by apply split_tiles_aligned in Hrun as (_ & ? & ? & ? & ?).
Qed.
End SplitterFacts.

Lemma split_tiles_partition_witness :
  ∃ train test st vt se ve,
    split_tiles [1; 0] sat_two veg_two = Ok (train, test, st, vt, se, ve) ∧
    length train + length test = 2 ∧ length test = 1.
Proof.
  destruct (split_tiles_partition [1; 0] sat_two veg_two)
    as (train & test & st & vt & se & ve & Hrun & Hsum & _ & _ & _ & _ & Hte & _).
  - list_mem.
  - simpl. lia.
  - simpl. apply Permutation_swap.
  - exists (2, 2, 1). repeat constructor.
  - exists (2, 2, 1). repeat constructor.
  - list_mem.
  - exists train, test, st, vt, se, ve. split; [exact Hrun|].
    split; [exact Hsum|exact Hte].
Defined.

(** C6, as stated, fails for a TileSet of one tile: the train set would be
    empty and the split raises [ValueError], whatever permutation is drawn. *)
Lemma split_tiles_single_counterexample :
  length sat_one = 1 ∧
  ∀ perm, split_tiles perm sat_one sat_one = Raise ValueError.
Proof. split; [done|]. intros perm. reflexivity. Qed.

Lemma split_tiles_pairing_witness :
  (∀ train test st vt se ve,
     split_tiles [1; 0] sat_two veg_two = Ok (train, test, st, vt, se, ve) →
     gathered sat_two train st ∧ gathered veg_two train vt ∧
     gathered sat_two test se ∧ gathered veg_two test ve) ∧
  (2 ≤ length sat_two → [1; 0] ≡ₚ seq 0 (length sat_two) →
   uniform sat_two → uniform veg_two →
   ∃ train test st vt se ve,
     split_tiles [1; 0] sat_two veg_two = Ok (train, test, st, vt, se, ve)).
Proof.
  apply (split_tiles_pairing [1; 0] sat_two veg_two).
  list_mem.
Defined.

Example split_demo :
  split_tiles [1; 0] sat_two veg_two
  = Ok ([(0, 0)], [(0, 2)], [tile_ones], [tile_twos], [tile_twos], [tile_ones]).
Proof. reflexivity. Qed.

Lemma split_tiles_key_mismatch_witness :
  ∃ k, split_tiles [1; 0] sat_two veg_short = Raise (KeyError k) ∧
       k ∈ dict_keys sat_two ∧ k ∉ dict_keys veg_short.
Proof.
  apply (split_tiles_key_mismatch [1; 0] sat_two veg_short).
  - simpl. lia.
  - simpl. apply Permutation_swap.
  - exists (2, 2, 1). repeat constructor.
  - exists (2, 2, 1). repeat constructor.
  - exists (0, 2). list_mem.
Defined.

(** C4, as stated, fails in one direction: the label TileSet has the key
    (0, 4) that the satellite TileSet lacks, and the DatasetSplitter returns
    normally, without any lookup error. *)
Lemma split_tiles_extra_label_counterexample :
  (0, 4) ∈ dict_keys veg_extra ∧ ((0, 4) ∉ dict_keys sat_two) ∧
  (∃ out, split_tiles [1; 0] sat_two veg_extra = Ok out) ∧
  ¬ ∃ k, split_tiles [1; 0] sat_two veg_extra = Raise (KeyError k).
Proof.
  split; [list_mem|]. split; [list_mem|].
  split; [by eexists|]. by intros [k ?].
Qed.

(** ** The SegmentationModel *)

Module UnetFacts.
Import Unet.





Lemma Input_ok x h w :
  shape3 x = (h, w, 4) → Input (None, None, Some 4) x = Ok x.
Proof. intros Hs. unfold Input. rewrite Hs. by rewrite decide_True. Qed.

Lemma Conv2D_same_ok filters ks act wt x h w c :
  shape3 x = (h, w, c) →
  ∃ y, Conv2D filters ks act same wt x = Ok y ∧ shape3 y = (h, w, filters).
Proof. intros Hs. unfold Conv2D. rewrite Hs. by eexists. Qed.

Lemma MaxPooling2D_ok x h w c :
  shape3 x = (h, w, c) → 2 ≤ h → 2 ≤ w →
  ∃ y, MaxPooling2D x = Ok y ∧ shape3 y = (h / 2, w / 2, c).
Proof.
  intros Hs Hh Hw. unfold MaxPooling2D. rewrite Hs.
  rewrite decide_True by done. by eexists.
Qed.

Lemma UpSampling2D_ok x h w c :
  shape3 x = (h, w, c) →
  ∃ y, UpSampling2D x = Ok y ∧ shape3 y = (2 * h, 2 * w, c).
Proof. intros Hs. unfold UpSampling2D. rewrite Hs. by eexists. Qed.

Lemma concatenate_ok a b h w c c' :
  shape3 a = (h, w, c) → shape3 b = (h, w, c') →
  ∃ y, concatenate a b = Ok y ∧ shape3 y = (h, w, c + c').
Proof.
  intros Ha Hb. unfold concatenate. rewrite Ha, Hb.
  rewrite decide_True by done. by eexists.
Qed.




End UnetFacts.



(** * Further properties *)

(** ** The Tiler: the tiles partition the covered region *)

Lemma tile_keys_cover_region H W T x y :
  0 < T → x < H / T * T → y < W / T * T →
  (x / T * T, y / T * T) ∈ tile_keys H W T ∧
  covers T (x / T * T, y / T * T) x y.
Proof.
  intros HT Hx Hy.
  pose proof (Nat.div_mod_eq x T). pose proof (Nat.div_mod_eq y T).
  pose proof (Nat.mod_upper_bound x T ltac:(lia)).
  pose proof (Nat.mod_upper_bound y T ltac:(lia)).
  split.
  - apply tile_keys_elem. exists (x / T), (y / T).
    repeat split; [nia|nia].
  - unfold covers. simpl. nia.
Qed.

Lemma tile_keys_covering H W T k x y :
  0 < T → k ∈ tile_keys H W T → covers T k x y →
  k = (x / T * T, y / T * T) ∧ x < H / T * T ∧ y < W / T * T.
Proof.
  intros HT Hk [Hr Hc]. destruct k as [r c].
  apply tile_keys_elem in Hk as (i & j & Hi & Hj & -> & ->). simpl in Hr, Hc.
  assert (x / T = i) as <-.
  { symmetry. apply (Nat.div_unique x T i (x - i * T)); lia. }
  assert (y / T = j) as <-.
  { symmetry. apply (Nat.div_unique y T j (y - j * T)); lia. }
  split; [done|]. nia.
Qed.

(** X1. The TileSet of a raster cut with a positive tile size covers the
    top-left region of floor(H/T)*T rows and floor(W/T)*T columns exactly
    once: every cell of the region lies in the block of one and only one
    key, and a cell of the remainder strip lies in no block. *)
Theorem cut_into_tiles_partition {A} (img : ndarray3 A) (H W C T : nat) :
  shape3 img = (H, W, C) → 0 < T →
  ∃ tiles, cut_into_tiles img T = Ok tiles ∧
    ∀ x y,
      (x < H / T * T ∧ y < W / T * T →
       ∃ k, k ∈ dict_keys tiles ∧ covers T k x y ∧
            ∀ k', k' ∈ dict_keys tiles → covers T k' x y → k' = k) ∧
      (¬ (x < H / T * T ∧ y < W / T * T) →
       ∀ k, k ∈ dict_keys tiles → ¬ covers T k x y).
Proof.
  intros Hshape HT. eexists. split; [by eapply cut_into_tiles_eq|].
  rewrite dict_keys_fmap. intros x y. split.
  - intros [Hx Hy].
    destruct (tile_keys_cover_region H W T x y HT Hx Hy) as [Hin Hcov].
    eexists. split; [exact Hin|]. split; [exact Hcov|].
    intros k' Hk' Hcov'.
    by destruct (tile_keys_covering H W T k' x y HT Hk' Hcov') as [-> _].
  - intros Hout k Hk Hcov.
    destruct (tile_keys_covering H W T k x y HT Hk Hcov) as (_ & ? & ?). tauto.
Qed.

Lemma cut_into_tiles_partition_witness :
  ∃ tiles, cut_into_tiles img_demo 2 = Ok tiles ∧
    ∀ k, k ∈ dict_keys tiles → ¬ covers 2 k 2 4.
Proof.
  destruct (cut_into_tiles_partition img_demo 3 5 1 2)
    as (tiles & Hrun & Hpart).
  - reflexivity.
  - lia.
  - exists tiles. split; [exact Hrun|].
    apply (Hpart 2 4). simpl. lia.
Defined.

(** ** Tiler then Stitcher on any raster *)

Section CutStitch.
Context {A F : Type} (fzero : F) (to_float : A → F).

Lemma cut_stitch_cells (img : ndarray3 A) (H W C T : nat) rest :
  wf3 img → shape3 img = (H, W, C) → 0 < C → 0 < T → T ≤ H → T ≤ W →
  ∃ tiles full,
    cut_into_tiles img T = Ok tiles ∧
    jahit_tiles fzero to_float tiles (H :: W :: rest) = Ok full ∧
    shape2 full = (H, W) ∧ wf2 full ∧
    ∀ x y, x < H → y < W →
      get2 full x y = if decide (x < H / T * T ∧ y < W / T * T)
                      then to_float <$> get3 img x y 0
                      else Some fzero.
Proof.
  intros Hwf Hshape HC HT HTH HTW.
  set (tiles := (λ k, (k, tile_at img T k)) <$> tile_keys H W T).
  assert (∀ k t, (k, t) ∈ tiles → k ∈ tile_keys H W T ∧ t = tile_at img T k)
    as Helem.
  { intros k t (k' & [= -> ->] & Hk)%list_elem_of_fmap. done. }
  assert (0 < H / T ∧ 0 < W / T) as [HqH HqW].
  { split; apply Nat.div_str_pos; lia. }
  destruct (jahit_tiles_paint fzero to_float tiles T C H W rest)
    as (full & Hrun & Hsh & Hwf' & Hget).
  - destruct (tile_keys_cover_region H W T 0 0 HT) as [Hin _]; [lia..|].
    intros Hnil. unfold tiles in Hnil. apply fmap_nil_inv in Hnil.
    rewrite Hnil in Hin. by apply elem_of_nil in Hin.
  - done.
  - apply Forall_forall. intros [k t] [Hk ->]%Helem. simpl.
    pose proof (tile_keys_fit _ _ _ _ Hk) as [Hr Hc].
    split; [|done]. split; [by eapply tile_at_shape|by apply slice3_wf].
  - exists tiles, full. split; [by eapply cut_into_tiles_eq|].
    do 3 (split; [done|]).
    intros x y Hx Hy. rewrite Hget. case_decide as Hreg.
    + apply paint_cell_same.
      * destruct Hreg as [Hrx Hry].
        destruct (tile_keys_cover_region H W T x y HT Hrx Hry) as [Hin Hcov].
        eexists _, _. split; [|exact Hcov].
        apply list_elem_of_fmap. eexists. split; [reflexivity|exact Hin].
      * intros k t [Hk ->]%Helem [Hcr Hcc]. unfold tile_at.
        rewrite slice3_get by lia.
        by replace (k.1 + (x - k.1)) with x by lia;
           replace (k.2 + (y - k.2)) with y by lia.
    + rewrite paint_cell_uncovered; [by apply zeros_get|].
      intros k t [Hk _]%Helem Hcov.
      destruct (tile_keys_covering H W T k x y HT Hk Hcov) as (_ & ? & ?).
      tauto.
Qed.

(** X2. For a raster of shape (H, W, C) with C >= 1 and a tile size
    0 < T <= H, W, cutting and stitching into (H, W) gives an array that
    holds band 0 of the raster on the first floor(H/T)*T rows and
    floor(W/T)*T columns and 0.0 on the remainder strip. *)
Theorem cut_stitch_covered (img : ndarray3 A) (H W C T : nat) rest :
  wf3 img → shape3 img = (H, W, C) → 0 < C → 0 < T → T ≤ H → T ≤ W →
  ∃ tiles full,
    cut_into_tiles img T = Ok tiles ∧
    jahit_tiles fzero to_float tiles (H :: W :: rest) = Ok full ∧
    shape2 full = (H, W) ∧ wf2 full ∧
    ∀ x y, x < H → y < W →
      get2 full x y = if decide (x < H / T * T ∧ y < W / T * T)
                      then to_float <$> get3 img x y 0
                      else Some fzero.
Proof. apply cut_stitch_cells. Qed.
End CutStitch.

Lemma cut_stitch_covered_witness :
  ∃ tiles full,
    cut_into_tiles img_demo 2 = Ok tiles ∧
    jahit_tiles 0%Z Z.of_nat tiles [3; 5] = Ok full ∧
    get2 full 1 3 = Some 9%Z ∧ get2 full 1 4 = Some 0%Z.
Proof.
  destruct (cut_stitch_covered 0%Z Z.of_nat img_demo 3 5 1 2 [])
    as (tiles & full & Hcut & Hrun & _ & _ & Hget).
  - wf_concrete.
  - reflexivity.
  - lia.
  - lia.
  - lia.
  - lia.
  - exists tiles, full. split; [exact Hcut|]. split; [exact Hrun|]. split.
    + rewrite (Hget 1 3) by lia. reflexivity.
    + rewrite (Hget 1 4) by lia. reflexivity.
Defined.

(** ** The Stitcher: iteration order and tiles of side 1 *)

(** Two well-formed arrays of one shape with the same cells are equal. *)
Lemma ndarray2_ext {X} (a b : ndarray2 X) :
  shape2 a = shape2 b → wf2 a → wf2 b →
  (∀ x y, get2 a x y = get2 b x y) → a = b.
Proof.
  destruct a as [[h w] da], b as [[h' w'] db]. unfold wf2, get2. simpl.
  intros [= <- <-] [Hla Hra] [Hlb Hrb] Hget. f_equal.
  apply list_eq. intros x.
  destruct (da !! x) as [ra|] eqn:Ha, (db !! x) as [rb|] eqn:Hb.
  - f_equal. apply list_eq. intros y. specialize (Hget x y).
    by rewrite Ha, Hb in Hget.
  - apply lookup_lt_Some in Ha. apply lookup_ge_None in Hb. lia.
  - apply lookup_ge_None in Ha. apply lookup_lt_Some in Hb. lia.
  - done.
Qed.

Section StitcherOrder.
Context {A F : Type} (fzero : F) (to_float : A → F).
Implicit Types (tiles : tileset A).

Lemma paint_cell_non_overlapping T tiles x y v0 k t :
  non_overlapping T tiles → (k, t) ∈ tiles → covers T k x y →
  paint_cell to_float T tiles x y v0
  = to_float <$> get3 t (x - k.1) (y - k.2) 0.
Proof.
  intros Hno Hin Hcov. apply paint_cell_same; [by eauto|].
  intros k' t' Hin' Hcov'.
  pose proof (Hno (k', t') (k, t) x y Hin' Hin Hcov' Hcov) as Heq.
  by injection Heq as -> ->.
Qed.

Lemma paint_cell_permutation T tiles tiles' x y v0 :
  tiles ≡ₚ tiles' → non_overlapping T tiles →
  paint_cell to_float T tiles x y v0 = paint_cell to_float T tiles' x y v0.
Proof.
  intros Hp Hno.
  assert (non_overlapping T tiles') as Hno'.
  { intros kt kt' x' y' Hin Hin'. rewrite <-Hp in Hin, Hin'. by apply Hno. }
  destruct (decide (Exists (λ kt, covers T kt.1 x y) tiles)) as [Hex|Hnex].
  - apply Exists_exists in Hex as ([k t] & Hin & Hcov). simpl in Hcov.
    rewrite (paint_cell_non_overlapping T tiles x y v0 k t) by done.
    rewrite (paint_cell_non_overlapping T tiles' x y v0 k t);
      [done|done| |done]. by rewrite <-Hp.
  - rewrite !paint_cell_uncovered; [done| |].
    + intros k t Hin Hcov. apply Hnex, Exists_exists. exists (k, t).
      split; [by rewrite Hp|done].
    + intros k t Hin Hcov. apply Hnex, Exists_exists. by exists (k, t).
Qed.

(** X3. When no two tiles overlap, the stitched array does not depend on
    the iteration order of the mapping: two mappings with the same entries
    in different orders (tiles of shape (T, T, C), C >= 1, that fit) give
    the same array. *)
Theorem jahit_tiles_permutation tiles tiles' T C h w rest :
  tiles ≡ₚ tiles' → tiles ≠ [] → 0 < C →
  Forall (λ kt, tile_ok T C kt.2 ∧ fits T h w kt.1) tiles →
  non_overlapping T tiles →
  ∃ full, jahit_tiles fzero to_float tiles (h :: w :: rest) = Ok full ∧
          jahit_tiles fzero to_float tiles' (h :: w :: rest) = Ok full.
Proof.
  intros Hp Hne HC Hall Hno.
  destruct (jahit_tiles_paint fzero to_float tiles T C h w rest Hne HC Hall)
    as (full & Hrun & Hsh & Hwf & Hget).
  destruct (jahit_tiles_paint fzero to_float tiles' T C h w rest)
    as (full' & Hrun' & Hsh' & Hwf' & Hget').
  - intros ->. apply Permutation_nil_r in Hp. done.
  - done.
  - by rewrite <-Hp.
  - exists full. split; [done|]. rewrite Hrun'. f_equal.
    apply ndarray2_ext; [congruence|done|done|].
    intros x y. rewrite Hget, Hget'. symmetry.
    by apply paint_cell_permutation.
Qed.



End StitcherOrder.

Lemma jahit_tiles_permutation_witness :
  ∃ full,
    jahit_tiles 0%Z Z.of_nat tiles_demo [3; 5] = Ok full ∧
    jahit_tiles 0%Z Z.of_nat (reverse tiles_demo) [3; 5] = Ok full.
Proof.
  apply (jahit_tiles_permutation 0%Z Z.of_nat tiles_demo (reverse tiles_demo)
           2 1 3 5 []).
  - apply Permutation_swap.
  - discriminate.
  - lia.
  - repeat constructor; wf_concrete.
  - intros kt kt' x y Hin Hin'. unfold tiles_demo in Hin, Hin'.
    repeat (apply elem_of_cons in Hin as [->|Hin]);
      try (by apply elem_of_nil in Hin);
      repeat (apply elem_of_cons in Hin' as [->|Hin']);
      try (by apply elem_of_nil in Hin');
      unfold covers; simpl; intros; (reflexivity || lia).
Defined.


(** ** The DatasetSplitter: small inputs, and no tile lost *)

Section SplitterMore.
Context {A B : Type}.
Implicit Types (sat : tileset A) (veg : tileset B).

(** X5. With fewer than two satellite tiles the DatasetSplitter raises
    [ValueError] (the train set would be empty), whatever the label
    TileSet and the random draw. *)
Theorem split_tiles_small perm sat veg :
  length sat < 2 → split_tiles perm sat veg = Raise ValueError.
Proof.
  intros Hn. unfold split_tiles.
  rewrite train_test_split_small; [done|].
  unfold dict_keys. by rewrite length_fmap.
Qed.

Lemma gathered_omap {V} (d : dict V) keys (l : list V) :
  gathered d keys l → l = omap (λ k, dict_get k d) keys.
Proof.
  intros [Hlen Hget]. revert l Hlen Hget.
  induction keys as [|k keys IH]; intros l Hlen Hget.
  - by apply nil_length_inv.
  - destruct l as [|v l]; [done|]. simpl in Hlen.
    destruct (Hget 0 k eq_refl) as (v' & [= <-] & Hv).
    cbn [omap list_omap]. rewrite Hv. f_equal.
    apply IH; [lia|]. intros i k' Hi. by apply (Hget (S i)).
Qed.

Lemma omap_dict_get_keys {V} (d : dict V) :
  NoDup (dict_keys d) → omap (λ k, dict_get k d) (dict_keys d) = dict_values d.
Proof.
  unfold dict_keys, dict_values. intros Hnd.
  induction d as [|[k v] d IH]; [done|].
  cbn [fmap list_fmap] in *. apply NoDup_cons in Hnd as [Hk Hnd].
  cbn [omap list_omap dict_get fst snd]. rewrite decide_True by done.
  f_equal. rewrite <-IH by done. apply list_omap_ext.
  apply Forall_Forall2_diag, Forall_forall. intros k' Hk'.
  rewrite decide_False; [done|]. by intros ->.
Qed.

(** X6. The DatasetSplitter neither drops nor repeats a tile: for
    TileSets with the same keys, sat_train and sat_test together hold the
    satellite tiles, each once, and veg_train and veg_test the label
    tiles. *)
Theorem split_tiles_no_loss perm sat veg train test st vt se ve :
  NoDup (dict_keys sat) → NoDup (dict_keys veg) →
  dict_keys sat ≡ₚ dict_keys veg →
  2 ≤ length sat → perm ≡ₚ seq 0 (length sat) →
  split_tiles perm sat veg = Ok (train, test, st, vt, se, ve) →
  se ++ st ≡ₚ dict_values sat ∧ ve ++ vt ≡ₚ dict_values veg.
Proof.
  intros Hnds Hndv Hkeys HN Hperm Hrun.
  apply split_tiles_aligned in Hrun as (Hsplit & Hst & Hvt & Hse & Hve).
  destruct (split_keys_subset perm sat train test HN Hperm Hsplit)
    as (_ & _ & Hp).
  rewrite (gathered_omap _ _ _ Hst), (gathered_omap _ _ _ Hse).
  rewrite (gathered_omap _ _ _ Hvt), (gathered_omap _ _ _ Hve).
  rewrite <-!omap_app. split.
  - by rewrite Hp, omap_dict_get_keys.
  - by rewrite Hp, Hkeys, omap_dict_get_keys.
Qed.
End SplitterMore.

Lemma split_tiles_small_witness :
  split_tiles [0] sat_one veg_two = Raise ValueError.
Proof. apply split_tiles_small. simpl. lia. Defined.

Lemma split_tiles_no_loss_witness :
  [tile_twos] ++ [tile_ones] ≡ₚ dict_values sat_two ∧
  [tile_ones] ++ [tile_twos] ≡ₚ dict_values veg_two.
Proof.
  apply (split_tiles_no_loss [1; 0] sat_two veg_two
           [(0, 0)] [(0, 2)] [tile_ones] [tile_twos] [tile_twos] [tile_ones]).
  - list_mem.
  - list_mem.
  - apply Permutation_swap.
  - simpl. lia.
  - apply Permutation_swap.
  - reflexivity.
Defined.

(** ** The SegmentationModel: inputs it rejects *)

Module UnetMore.
Import Unet UnetFacts.

Lemma MaxPooling2D_small x h w c :
  shape3 x = (h, w, c) → ¬ (2 ≤ h ∧ 2 ≤ w) → MaxPooling2D x = Raise ShapeError.
Proof.
  intros Hs Hsmall. unfold MaxPooling2D. rewrite Hs. by rewrite decide_False.
Qed.

Lemma concatenate_mismatch a b h w c h' w' c' :
  shape3 a = (h, w, c) → shape3 b = (h', w', c') → ¬ (h = h' ∧ w = w') →
  concatenate a b = Raise ShapeError.
Proof.
  intros Ha Hb Hne. unfold concatenate. rewrite Ha, Hb.
  by rewrite decide_False.
Qed.

Lemma quarters H : 2 * (H / 2 / 2) = H / 2 → 2 * (H / 2) = H → H `mod` 4 = 0.
Proof.
  intros H1 H2. pose proof (Nat.div_mod_eq H 4).
  pose proof (Nat.mod_upper_bound H 4 ltac:(lia)). lia.
Qed.

(** X7. The model rejects every other input: when the input does not have
    4 channels, or its height or width is not a positive multiple of 4, the
    forward pass fails with a shape error - at the input, at a pooling layer
    fed a map lower or narrower than its 2 by 2 window, or where an
    up-sampled map is concatenated with a skip map of another size - and
    returns nothing. *)
Theorem uncompiled_unet_rejects θ x H W c :
  shape3 x = (H, W, c) →
  ¬ (c = 4 ∧ 0 < H ∧ 0 < W ∧ H `mod` 4 = 0 ∧ W `mod` 4 = 0) →
  uncompiled_unet θ x = Raise ShapeError.
Proof.
  intros Hs Hbad. unfold uncompiled_unet.
  destruct (decide (c = 4)) as [->|Hc].
  2:{ unfold Input. rewrite Hs. rewrite decide_False; [done|]. simpl. tauto. }
  rewrite (Input_ok x H W Hs). cbn [mbind result_bind].
  destruct (Conv2D_same_ok 32 3 relu (w_conv1 θ) x _ _ _ Hs)
    as (conv1 & -> & Hc1). cbn [mbind result_bind].
  destruct (decide (2 ≤ H ∧ 2 ≤ W)) as [[HH1 HW1]|Hsmall].
  2:{ by rewrite (MaxPooling2D_small conv1 _ _ _ Hc1 Hsmall). }
  destruct (MaxPooling2D_ok conv1 _ _ _ Hc1 HH1 HW1) as (pool1 & -> & Hp1).
  cbn [mbind result_bind].
  destruct (Conv2D_same_ok 64 3 relu (w_conv2 θ) pool1 _ _ _ Hp1)
    as (conv2 & -> & Hc2). cbn [mbind result_bind].
  destruct (decide (2 ≤ H / 2 ∧ 2 ≤ W / 2)) as [[HH1' HW1']|Hsmall].
  2:{ by rewrite (MaxPooling2D_small conv2 _ _ _ Hc2 Hsmall). }
  destruct (MaxPooling2D_ok conv2 _ _ _ Hc2 HH1' HW1') as (pool2 & -> & Hp2).
  cbn [mbind result_bind].
  destruct (Conv2D_same_ok 128 3 relu (w_conv3 θ) pool2 _ _ _ Hp2)
    as (conv3 & -> & Hc3). cbn [mbind result_bind].
  destruct (UpSampling2D_ok conv3 _ _ _ Hc3) as (up3 & -> & Hu3).
  cbn [mbind result_bind].
  destruct (decide (2 * (H / 2 / 2) = H / 2 ∧ 2 * (W / 2 / 2) = W / 2))
    as [[HH4 HW4]|Hne].
  2:{ by rewrite (concatenate_mismatch up3 conv2 _ _ _ _ _ _ Hu3 Hc2 Hne). }
  rewrite HH4, HW4 in Hu3.
  destruct (concatenate_ok up3 conv2 _ _ _ _ Hu3 Hc2) as (up4 & -> & Hu4).
  cbn [mbind result_bind].
  destruct (Conv2D_same_ok 64 3 relu (w_conv4 θ) up4 _ _ _ Hu4)
    as (conv4 & -> & Hc4). cbn [mbind result_bind].
  destruct (UpSampling2D_ok conv4 _ _ _ Hc4) as (up4' & -> & Hu4').
  cbn [mbind result_bind].
  rewrite (concatenate_mismatch up4' conv1 _ _ _ _ _ _ Hu4' Hc1); [done|].
  intros [HH2 HW2]. apply Hbad.
  split; [done|]. split; [lia|]. split; [lia|]. split; by apply quarters.
Qed.
End UnetMore.

Lemma uncompiled_unet_rejects_witness :
  Unet.uncompiled_unet θ_demo (Unet.tabulate3 6 4 4 (λ _ _ _, 0%R))
  = Raise ShapeError.
Proof.
  apply (UnetMore.uncompiled_unet_rejects θ_demo _ 6 4 4).
  - reflexivity.
  - simpl. intros (_ & _ & _ & Hm & _). discriminate.
Defined.

(** ** Raster I/O *)

Lemma range_aux_seq fuel i : range_aux fuel i (i + fuel) 1 = seq i fuel.
Proof.
  revert i. induction fuel as [|fuel IH]; intros i; [done|].
  cbn [range_aux seq]. rewrite decide_True by lia. f_equal.
  replace (i + S fuel) with (i + 1 + fuel) by lia.
  rewrite IH. f_equal. lia.
Qed.

Lemma omap_all_Some {X Y} (f : X → option Y) (l : list X) :
  Forall (λ x, is_Some (f x)) l →
  length (omap f l) = length l ∧
  ∀ i x, l !! i = Some x → omap f l !! i = f x.
Proof.
  induction 1 as [|x l [y Hy] _ [IHlen IHget]]; [done|].
  cbn [omap list_omap]. rewrite Hy. split; [simpl; lia|].
  intros [|i] x'; simpl; [by intros [= <-]|]. apply IHget.
Qed.

Lemma wf2_get {X} (a : ndarray2 X) h w r c :
  shape2 a = (h, w) → wf2 a → r < h → c < w → is_Some (get2 a r c).
Proof.
  unfold wf2, get2. intros -> [Hlen Hrows] Hr Hc.
  destruct (lookup_lt_is_Some_2 (data2 a) r) as [row Hrow]; [lia|].
  rewrite Hrow. simpl. apply lookup_lt_is_Some_2.
  eapply Forall_lookup in Hrows; [|exact Hrow]. simpl in Hrows. lia.
Qed.

(** [np.dstack] of [n >= 1] well-formed arrays of one shape. *)
Lemma np_dstack_ok {X} (arrays : list (ndarray2 X)) h w :
  arrays ≠ [] → Forall (λ b, shape2 b = (h, w) ∧ wf2 b) arrays →
  ∃ img, np_dstack arrays = Ok img ∧
    shape3 img = (h, w, length arrays) ∧ wf3 img ∧
    ∀ r c b band, arrays !! b = Some band → r < h → c < w →
      get3 img r c b = get2 band r c.
Proof.
  intros Hne Hall. destruct arrays as [|a arrays0] eqn:Harr; [done|].
  rewrite <-Harr in *. unfold np_dstack. rewrite Harr. rewrite <-Harr.
  assert (shape2 a = (h, w)) as ->.
  { rewrite Harr in Hall. by pose proof (Forall_inv Hall) as [? _]. }
  rewrite decide_True.
  2:{ eapply Forall_impl; [exact Hall|]. by intros b [? _]. }
  assert (∀ r c, r < h → c < w →
            Forall (λ b, is_Some (get2 b r c)) arrays) as Hsome.
  { intros r c Hr Hc. eapply Forall_impl; [exact Hall|].
    intros b [Hs Hwf]. by eapply wf2_get. }
  eexists. split; [done|]. split; [done|]. split.
  - unfold wf3. cbn [shape3 data3]. split.
    + by rewrite length_fmap, length_seq.
    + apply Forall_fmap, Forall_forall. intros r Hr%elem_of_seq. cbn. split.
      * by rewrite length_fmap, length_seq.
      * apply Forall_fmap, Forall_forall. intros c Hc%elem_of_seq. cbn.
        apply omap_all_Some, Hsome; lia.
  - intros r c b band Hb Hr Hc. unfold get3. cbn [data3].
    rewrite list_lookup_fmap, lookup_seq_lt by done. cbn.
    rewrite list_lookup_fmap, lookup_seq_lt by done. cbn.
    by apply (omap_all_Some _ _ (Hsome r c Hr Hc)).
Qed.

Section RasterIOFacts.
Context {Path Proj Geo X : Type}.
Implicit Types (ds : @dataset Proj Geo X) (fs : Path → option (@dataset Proj Geo X)).

Lemma mapM_GetRasterBand ds (pre l : list (ndarray2 X)) :
  raster_bands ds = pre ++ l →
  mapM (GetRasterBand ds) (seq (S (length pre)) (length l)) = Some l.
Proof.
  revert pre. induction l as [|b l IH]; intros pre Hds; [done|].
  cbn [length seq mapM].
  assert (GetRasterBand ds (S (length pre)) = Some b) as ->.
  { unfold GetRasterBand. rewrite decide_False by lia. rewrite Hds. simpl.
    by rewrite Nat.sub_0_r, list_lookup_middle. }
  specialize (IH (pre ++ [b])).
  rewrite length_app, Nat.add_1_r, <-app_assoc in IH.
  cbn [mbind option_bind]. by rewrite IH.
Qed.

(** Reading a file that holds a well-formed dataset with a band. *)
Lemma read_tif_dataset fs file_path ds :
  fs file_path = Some ds → wf_dataset ds → 0 < RasterCount ds →
  ∃ img,
    read_tif fs file_path = Done (img, GetProjection ds, GetGeoTransform ds) ∧
    shape3 img = (RasterYSize ds, RasterXSize ds, RasterCount ds) ∧
    wf3 img ∧
    ∀ r c b band, raster_bands ds !! b = Some band →
      r < RasterYSize ds → c < RasterXSize ds →
      get3 img r c b = get2 band r c.
Proof.
  intros Hfs Hwf Hn. unfold read_tif. rewrite Hfs. cbn [from_gdal mbind io_bind].
  unfold py_range. rewrite decide_False by lia. cbn [lift mbind io_bind].
  replace (RasterCount ds + 1 - 1) with (RasterCount ds) by lia.
  rewrite (Nat.add_comm _ 1), range_aux_seq.
  pose proof (mapM_GetRasterBand ds [] (raster_bands ds) eq_refl) as Hbands.
  cbn [length] in Hbands. unfold RasterCount. rewrite Hbands.
  cbn [from_gdal mbind io_bind].
  destruct (np_dstack_ok (raster_bands ds) (RasterYSize ds) (RasterXSize ds))
    as (img & -> & Hsh & Hwf3 & Hget); [|done|].
  { intros Hnil. unfold RasterCount in Hn. rewrite Hnil in Hn. simpl in Hn. lia. }
  exists img. done.
Qed.

(** X8. Reading a raster file with at least one band returns the array of
    shape (rows, columns, bands) whose channel b is band b + 1 of the file,
    together with the projection and the geotransform of the file. *)
Theorem read_tif_spec fs file_path ds :
  fs file_path = Some ds → wf_dataset ds → 0 < RasterCount ds →
  ∃ img,
    read_tif fs file_path = Done (img, GetProjection ds, GetGeoTransform ds) ∧
    shape3 img = (RasterYSize ds, RasterXSize ds, RasterCount ds) ∧
    wf3 img ∧
    ∀ r c b band, GetRasterBand ds (b + 1) = Some band →
      r < RasterYSize ds → c < RasterXSize ds →
      get3 img r c b = get2 band r c.
Proof.
  intros Hfs Hwf Hn.
  destruct (read_tif_dataset fs file_path ds Hfs Hwf Hn)
    as (img & Hrun & Hsh & Hwf3 & Hget).
  exists img. do 3 (split; [done|]).
  intros r c b band Hb. apply Hget. unfold GetRasterBand in Hb.
  rewrite decide_False in Hb by lia. by replace (b + 1 - 1) with b in Hb by lia.
Qed.

(** X9. Reading a file that has no band fails: [np.dstack] of the empty
    list of bands raises [ValueError], and no array is returned. *)
Theorem read_tif_no_bands fs file_path ds :
  fs file_path = Some ds → RasterCount ds = 0 →
  read_tif fs file_path = Fault (PyExn ValueError).
Proof.
  intros Hfs Hn. unfold read_tif. rewrite Hfs.
  cbn [from_gdal mbind io_bind]. rewrite Hn.
  destruct ds as [xs ys pr gt bands]. unfold RasterCount in Hn.
  cbn [raster_bands] in Hn. apply nil_length_inv in Hn as ->. reflexivity.
Qed.
End RasterIOFacts.

Lemma read_tif_spec_witness :
  ∃ img, read_tif fs_demo 0 = Done (img, 7, 9) ∧ shape3 img = (2, 3, 2) ∧
         get3 img 1 2 1 = Some 60.
Proof.
  destruct (read_tif_spec fs_demo 0 ds_demo) as (img & Hrun & Hsh & _ & Hget).
  - reflexivity.
  - unfold wf_dataset. simpl. repeat constructor; wf_concrete.
  - unfold RasterCount. simpl. lia.
  - exists img. split; [exact Hrun|]. split; [exact Hsh|].
    rewrite (Hget 1 2 1 _ eq_refl); [reflexivity|simpl; lia..].
Defined.

(** ** Tiler then DatasetSplitter *)

Section CutSplit.
Context {A B : Type}.

Lemma cut_tiles_uniform {X} (img : ndarray3 X) H W C T :
  shape3 img = (H, W, C) →
  uniform ((λ k, (k, tile_at img T k)) <$> tile_keys H W T).
Proof.
  intros Hshape. exists (T, T, C). apply Forall_fmap, Forall_forall.
  intros k [Hr Hc]%tile_keys_fit. simpl. by eapply tile_at_shape.
Qed.

(** X12. Two rasters of the same height and width, cut with the same
    positive tile size into at least two tiles, can always be split: the
    DatasetSplitter raises no lookup error, and the k-th entries of
    sat_train and veg_train (of sat_test and veg_test) are the sub-arrays
    of the two rasters at one and the same origin, the k-th train (test)
    key. *)
Theorem cut_split_paired perm (sat_img : ndarray3 A) (veg_img : ndarray3 B)
    H W C C' T :
  shape3 sat_img = (H, W, C) → shape3 veg_img = (H, W, C') → 0 < T →
  2 ≤ (H / T) * (W / T) → perm ≡ₚ seq 0 ((H / T) * (W / T)) →
  ∃ sat veg train test st vt se ve,
    cut_into_tiles sat_img T = Ok sat ∧ cut_into_tiles veg_img T = Ok veg ∧
    split_tiles perm sat veg = Ok (train, test, st, vt, se, ve) ∧
    (∀ i k, train !! i = Some k →
       st !! i = Some (tile_at sat_img T k) ∧
       vt !! i = Some (tile_at veg_img T k)) ∧
    (∀ i k, test !! i = Some k →
       se !! i = Some (tile_at sat_img T k) ∧
       ve !! i = Some (tile_at veg_img T k)).
Proof.
  intros Hs Hv HT HN Hperm.
  set (sat := (λ k, (k, tile_at sat_img T k)) <$> tile_keys H W T).
  set (veg := (λ k, (k, tile_at veg_img T k)) <$> tile_keys H W T).
  assert (length sat = H / T * (W / T)) as Hlen.
  { unfold sat. by rewrite length_fmap, tile_keys_length. }
  destruct (split_tiles_Ok perm sat veg)
    as (train & test & st & vt & se & ve & Hrun & Hsplit).
  { lia. }
  { by rewrite Hlen. }
  { by eapply cut_tiles_uniform. }
  { by eapply cut_tiles_uniform. }
  { intros k. unfold sat, veg. by rewrite !dict_keys_fmap. }
  destruct (split_keys_subset perm sat train test) as (_ & _ & Hp);
    [lia|by rewrite Hlen|done|].
  apply split_tiles_aligned in Hrun as Hal.
  destruct Hal as (_ & [_ Hst] & [_ Hvt] & [_ Hse] & [_ Hve]).
  assert (∀ k, k ∈ train ∨ k ∈ test → k ∈ tile_keys H W T) as Hin.
  { intros k Hk. rewrite <-(dict_keys_fmap (tile_at sat_img T)).
    fold sat. rewrite <-Hp, elem_of_app. tauto. }
  exists sat, veg, train, test, st, vt, se, ve.
  split; [by eapply cut_into_tiles_eq|].
  split; [by eapply cut_into_tiles_eq|]. split; [done|]. split.
  - intros i k Hi.
    assert (k ∈ tile_keys H W T) as Hk
      by (apply Hin; left; by eapply list_elem_of_lookup_2).
    destruct (Hst i k Hi) as (s & -> & Hgs).
    destruct (Hvt i k Hi) as (v & -> & Hgv).
    unfold sat in Hgs. unfold veg in Hgv.
    rewrite dict_get_fmap in Hgs by done. rewrite dict_get_fmap in Hgv by done.
    by rewrite Hgs, Hgv.
  - intros i k Hi.
    assert (k ∈ tile_keys H W T) as Hk
      by (apply Hin; right; by eapply list_elem_of_lookup_2).
    destruct (Hse i k Hi) as (s & -> & Hgs).
    destruct (Hve i k Hi) as (v & -> & Hgv).
    unfold sat in Hgs. unfold veg in Hgv.
    rewrite dict_get_fmap in Hgs by done. rewrite dict_get_fmap in Hgv by done.
    by rewrite Hgs, Hgv.
Qed.
End CutSplit.

Lemma cut_split_paired_witness :
  ∃ sat veg train test st vt se ve,
    cut_into_tiles img_even 2 = Ok sat ∧ cut_into_tiles img_even 2 = Ok veg ∧
    split_tiles [1; 0] sat veg = Ok (train, test, st, vt, se, ve) ∧
    length train = 1.
Proof.
  destruct (cut_split_paired [1; 0] img_even img_even 2 4 1 1 2)
    as (sat & veg & train & test & st & vt & se & ve & Hs & Hv & Hrun & _).
  - reflexivity.
  - reflexivity.
  - lia.
  - simpl. lia.
  - apply Permutation_swap.
  - exists sat, veg, train, test, st, vt, se, ve.
    split; [exact Hs|]. split; [exact Hv|]. split; [exact Hrun|].
    rewrite Hs in Hv. injection Hv as <-.
    vm_compute in Hs. injection Hs as <-.
    vm_compute in Hrun. by injection Hrun as <- _ _ _ _ _.
Defined.

Lemma read_tif_no_bands_witness :
  read_tif (λ p : nat, Some (Dataset 3 2 7 9 ([] : list (ndarray2 nat)))) 0
  = Fault (PyExn ValueError).
Proof.
  apply (read_tif_no_bands _ 0 (Dataset 3 2 7 9 [])); reflexivity.
Defined.
